(** * Emotion-driven song player: rotation policy and playback state machine

    A shallow embedding of [app.py]: the module globals become one [state]
    record, the functions that read and write them become computations in a
    state-and-exception monad, and the sources of nondeterminism
    ([random.choice], [os.path.exists], the camera, the clock, the emotion
    detector) become explicit inputs. *)

From Stdlib Require Import PrimFloat.
From stdpp Require Import base option list strings gmap.

Open Scope string_scope.
Open Scope list_scope.
Open Scope nat_scope.

(** ** Exceptions and the monad of the module

    A Python exception leaves the globals as they were at the point where it
    was raised, so the state is returned on both outcomes. *)

Inductive exn : Type :=
  | KeyError (key : string)
  | IndexError
  | NameError (name : string).

Inductive result (A : Type) : Type :=
  | Ok (a : A)
  | Raise (e : exn).
Arguments Ok {A} a.
Arguments Raise {A} e.

(** The globals of lines 36-44. *)
Record state : Type := mkState {
  played_songs : gmap string (list string);
  current_emotion : option string;
  next_emotion : option string;
  current_confidence : float;
  current_song : option string;
  song_assigned : bool;
  song_playing : bool
}.

Definition M (A : Type) : Type := state → result A * state.

Definition ret {A} (a : A) : M A := λ st, (Ok a, st).
Definition bind {A B} (m : M A) (f : A → M B) : M B := λ st,
  match m st with
  | (Ok a, st') => f a st'
  | (Raise e, st') => (Raise e, st')
  end.

Notation "'let*' x ':=' m 'in' k" := (bind m (λ x, k))
  (at level 10, x name, m at level 100, k at level 200).
Notation "m '>>' k" := (bind m (λ _, k))
  (at level 100, k at level 200, right associativity).

Definition raise {A} (e : exn) : M A := λ st, (Raise e, st).
Definition gets {A} (f : state → A) : M A := λ st, (Ok (f st), st).
Definition modify (f : state → state) : M unit := λ st, (Ok tt, f st).

(** Field updates ([global x; x = v]). *)
Definition set_played_songs (v : gmap string (list string)) (st : state) : state :=
  mkState v (current_emotion st) (next_emotion st) (current_confidence st)
          (current_song st) (song_assigned st) (song_playing st).
Definition set_current_emotion (v : option string) (st : state) : state :=
  mkState (played_songs st) v (next_emotion st) (current_confidence st)
          (current_song st) (song_assigned st) (song_playing st).
Definition set_next_emotion (v : option string) (st : state) : state :=
  mkState (played_songs st) (current_emotion st) v (current_confidence st)
          (current_song st) (song_assigned st) (song_playing st).
Definition set_current_confidence (v : float) (st : state) : state :=
  mkState (played_songs st) (current_emotion st) (next_emotion st) v
          (current_song st) (song_assigned st) (song_playing st).
Definition set_current_song (v : option string) (st : state) : state :=
  mkState (played_songs st) (current_emotion st) (next_emotion st)
          (current_confidence st) v (song_assigned st) (song_playing st).
Definition set_song_assigned (v : bool) (st : state) : state :=
  mkState (played_songs st) (current_emotion st) (next_emotion st)
          (current_confidence st) (current_song st) v (song_playing st).
Definition set_song_playing (v : bool) (st : state) : state :=
  mkState (played_songs st) (current_emotion st) (next_emotion st)
          (current_confidence st) (current_song st) (song_assigned st) v.

(** ** Configuration (lines 17-22, 36, 47) *)

Definition emotion_to_songs : gmap string (list string) :=
  list_to_map
    [ ("happy", ["happy1.mp3"; "happy2.mp3"]);
      ("sad", ["sad1.mp3"; "sad2.mp3"]);
      ("angry", ["angry1.mp3"; "angry2.mp3"]);
      ("neutral", ["neutral1.mp3"; "neutral2.mp3"]) ].

(** [0.8] as a binary64 value, the one Python uses. *)
Definition DETECT_INTERVAL : float := 0x1.999999999999ap-1%float.

(** [{emotion: [] for emotion in emotion_to_songs}] *)
Definition initial_played_songs (catalog : gmap string (list string))
  : gmap string (list string) :=
  (λ _, []) <$> catalog.

Definition initial_state (catalog : gmap string (list string)) : state :=
  {| played_songs := initial_played_songs catalog;
     current_emotion := None;
     next_emotion := None;
     current_confidence := 0.0%float;
     current_song := None;
     song_assigned := false;
     song_playing := false |}.

(** ** Song rotation policy (lines 55-65) *)

(** [played_songs[emotion]]: a missing key raises [KeyError]. *)
Definition played_of (emotion : string) : M (list string) := λ st,
  match played_songs st !! emotion with
  | Some h => (Ok h, st)
  | None => (Raise (KeyError emotion), st)
  end.

(** [played_songs[emotion] = v] *)
Definition store_played (emotion : string) (v : list string) : M unit :=
  modify (λ st, set_played_songs (<[emotion := v]> (played_songs st)) st).

(** [list(set(songs) - set(played))].  Python fixes no order for the
    elements of a set; the model lists them in catalog order, and the index
    drawn by [random_choice] ranges over all of them. *)
Definition remaining_songs (songs played : list string) : list string :=
  list_difference (remove_dups songs) played.

(** [random.choice(seq)] is [seq[randbelow(len(seq))]] and raises
    [IndexError] on an empty sequence; [rnd] is the number drawn. *)
Definition random_choice (rnd : nat) (seq : list string) : M string :=
  match seq !! (rnd `mod` length seq) with
  | Some x => ret x
  | None => raise IndexError
  end.

Definition get_next_song (catalog : gmap string (list string))
    (emotion : string) (rnd : nat) : M (option string) :=
  let songs := default [] (catalog !! emotion) in
  match songs with
  | [] => ret None
  | _ :: _ =>
      let* played := played_of emotion in
      (if (length played =? length songs)%nat
       then store_played emotion []
       else ret tt) >>
      let* played := played_of emotion in
      let remaining := remaining_songs songs played in
      let* choice := random_choice rnd remaining in
      let* played := played_of emotion in
      store_played emotion (played ++ [choice]) >>
      ret (Some choice)
  end.

(** ** Detection tick: the critical section of lines 123-139 *)

(** Truth value of a Python [str | None]: [None] and the empty string are
    false. *)
Definition truthy (v : option string) : bool :=
  match v with
  | Some s => negb (String.eqb s "")
  | None => false
  end.

(** [v or d] *)
Definition py_or (v : option string) (d : string) : string :=
  match v with
  | Some s => if truthy v then s else d
  | None => d
  end.

(** The guard of line 129. *)
Definition idle (st : state) : bool :=
  negb (song_assigned st) && negb (song_playing st).

(** [file_exists chosen] stands for
    [os.path.exists(os.path.join(SONG_DIR, chosen))]. *)
Definition detect_tick (catalog : gmap string (list string))
    (dominant : string) (confidence : float)
    (rnd : nat) (file_exists : string → bool) : M unit :=
  modify (set_next_emotion (Some dominant)) >>
  modify (set_current_confidence confidence) >>
  let* is_idle := gets idle in
  if is_idle then
    let* detected := gets next_emotion in
    let locked := py_or detected "neutral" in
    modify (set_current_emotion (Some locked)) >>
    let* chosen := get_next_song catalog locked rnd in
    match chosen with
    | Some song =>
        if truthy chosen && file_exists song
        then modify (set_current_song (Some song)) >>
             modify (set_song_assigned true)
        else modify (set_current_song None) >>
             modify (set_song_assigned false)
    | None =>
        modify (set_current_song None) >>
        modify (set_song_assigned false)
    end
  else ret tt.

(** ** Routes (lines 171-203) *)

#[local] Set Warnings "-register-all".
Inductive json : Type :=
  | JNull
  | JBool (b : bool)
  | JNum (x : float)
  | JStr (s : string)
  | JObj (fields : list (string * json)).

Definition json_of_opt (v : option string) : json :=
  match v with
  | Some s => JStr s
  | None => JNull
  end.

Definition ok_response : json := JObj [("ok", JBool true)].

Definition get_state : M json :=
  let* ne := gets next_emotion in
  let* ce := gets current_emotion in
  let* conf := gets current_confidence in
  let* sa := gets song_assigned in
  let* sp := gets song_playing in
  let* cs := gets current_song in
  ret (JObj [ ("next_emotion", json_of_opt ne);
               ("locked_emotion", json_of_opt ce);
               ("confidence", JNum conf);
               ("song_assigned", JBool sa);
               ("song_playing", JBool sp);
               ("song_filename", json_of_opt cs);
               ("song_url",
                if truthy cs
                then JStr ("/static/songs/" +:+ default "" cs)
                else JNull) ]).

Definition song_started : M json :=
  modify (set_song_playing true) >>
  ret ok_response.

Definition song_ended : M json :=
  modify (set_song_playing false) >>
  modify (set_song_assigned false) >>
  modify (set_current_song None) >>
  ret ok_response.

(** ** Frame generator (lines 67-156)

    What the loop obtains from its collaborators in one iteration. *)

Record face : Type := mkFace {
  (** [face.get("emotions", {})], in the dict's iteration order *)
  face_emotions : list (string * float)
}.

Record world : Type := mkWorld {
  (** [camera is not None and camera.isOpened()] on entry *)
  w_cam_is_open : bool;
  (** [isOpened()] of the handle that [cv2.VideoCapture] returns *)
  w_cam_reopens : bool;
  (** [ret] of [camera.read()] *)
  w_frame_ok : bool;
  (** [time.time()] *)
  w_now : float;
  (** [detector.detect_emotions(frame)]; [None] when it raises *)
  w_detected : option (list face);
  (** the number drawn by [random.choice] *)
  w_rnd : nat;
  (** [os.path.exists] on the files of [SONG_DIR] *)
  w_file_exists : string → bool;
  (** [cv2.imencode] of the blank image *)
  w_blank_jpeg : string;
  (** [cv2.imencode] of the overlaid frame; [None] when [ret2] is false *)
  w_frame_jpeg : option string
}.

Inductive event : Type :=
  | Yield (chunk : string)
  | Sleep (seconds : float).

(** The names bound at module level: the imports of lines 1-8 and 216 and
    the top-level assignments and functions. *)
Definition module_globals : list string :=
  [ "os"; "time"; "random"; "threading"; "BytesIO"; "Flask";
    "render_template"; "Response"; "jsonify"; "request";
    "send_from_directory"; "cv2"; "FER"; "app"; "SONG_DIR";
    "emotion_to_songs"; "detector"; "camera"; "state_lock"; "played_songs";
    "current_emotion"; "next_emotion"; "current_confidence"; "current_song";
    "song_assigned"; "song_playing"; "DETECT_INTERVAL"; "get_next_song";
    "ensure_camera_open"; "mjpeg_generator"; "index"; "video_feed";
    "get_state"; "song_started"; "song_ended"; "cleanup"; "atexit" ].

(** Reading a name that the function does not assign and that is no
    builtin: found among the module globals, or [NameError]. *)
Definition load_global (name : string) : M unit :=
  if bool_decide (name ∈ module_globals) then ret tt
  else raise (NameError name).

Definition ensure_camera_open (w : world) : bool :=
  if negb (w_cam_is_open w) then w_cam_reopens w else true.

Fixpoint dict_get (k : string) (d : list (string * float)) : option float :=
  match d with
  | [] => None
  | (k', v) :: d' => if String.eqb k k' then Some v else dict_get k d'
  end.

(** [max(keys, key=f)]: the first key whose value no later one exceeds. *)
Fixpoint py_max (f : string → float) (best : string) (keys : list string)
  : string :=
  match keys with
  | [] => best
  | k :: keys' => py_max f (if PrimFloat.ltb (f best) (f k) then k else best) keys'
  end.

(** Lines 106-121. *)
Definition classify (detected : option (list face)) : string * float :=
  match default [] detected with
  | [] => ("neutral", 0.0%float)
  | f :: _ =>
      let emotions := face_emotions f in
      match map fst emotions with
      | [] => ("neutral", 0.0%float)
      | k :: keys =>
          let get k := default 0.0%float (dict_get k emotions) in
          let dominant := py_max get k keys in
          (dominant, get dominant)
      end
  end.

Definition CRLF : string := String (Ascii.ascii_of_nat 13) (String (Ascii.ascii_of_nat 10) EmptyString).

Definition frame_chunk (jpeg : string) : string :=
  "--frame" +:+ CRLF +:+ "Content-Type: image/jpeg" +:+ CRLF +:+ CRLF
  +:+ jpeg +:+ CRLF.

(** One pass through the body of [while True], from [last_detection]. *)
Definition loop_iteration (catalog : gmap string (list string))
    (w : world) (last_detection : float) : M (float * list event) :=
  if negb (ensure_camera_open w) then
    load_global "np" >>
    ret (last_detection,
         [Yield (frame_chunk (w_blank_jpeg w)); Sleep 0.5%float])
  else if negb (w_frame_ok w) then
    ret (last_detection, [Sleep 0x1.47ae147ae147bp-6%float])
  else
    let now := w_now w in
    let* last_detection :=
      (if PrimFloat.leb DETECT_INTERVAL (now - last_detection)%float
       then
         let '(dominant, confidence) := classify (w_detected w) in
         detect_tick catalog dominant confidence (w_rnd w) (w_file_exists w) >>
         ret now
       else ret last_detection) in
    match w_frame_jpeg w with
    | None => ret (last_detection, [Sleep 0x1.47ae147ae147bp-7%float])
    | Some jpeg => ret (last_detection, [Yield (frame_chunk jpeg)])
    end.

(** The generator, run for as many iterations as there are [world]s: the
    events it produced, the exception that ended it (if any), and the
    globals it left. *)
Fixpoint mjpeg_generator_from (catalog : gmap string (list string))
    (ws : list world) (last_detection : float) (st : state)
  : list event * option exn * state :=
  match ws with
  | [] => ([], None, st)
  | w :: ws' =>
      match loop_iteration catalog w last_detection st with
      | (Ok (last_detection', evs), st') =>
          let '(evs', e, st'') :=
            mjpeg_generator_from catalog ws' last_detection' st' in
          (evs ++ evs', e, st'')
      | (Raise e, st') => ([], Some e, st')
      end
  end.

Definition mjpeg_generator (catalog : gmap string (list string))
    (ws : list world) (st : state) : list event * option exn * state :=
  mjpeg_generator_from catalog ws 0.0%float st.

(** ** The operations of the playback state machine

    Every operation runs inside [with state_lock], so a run of the server is
    a sequence of them.  An operation that raises still leaves its partial
    updates in the globals. *)

Inductive op : Type :=
  | Detect (dominant : string) (confidence : float)
           (rnd : nat) (file_exists : string → bool)
  | ClientStarted
  | ClientEnded.

Definition run_op (catalog : gmap string (list string)) (o : op)
    (st : state) : state :=
  match o with
  | Detect dominant confidence rnd file_exists =>
      snd (detect_tick catalog dominant confidence rnd file_exists st)
  | ClientStarted => snd (song_started st)
  | ClientEnded => snd (song_ended st)
  end.

Definition run_ops (catalog : gmap string (list string)) (os : list op)
    (st : state) : state :=
  foldl (λ s o, run_op catalog o s) st os.

Inductive reachable (catalog : gmap string (list string)) : state → Prop :=
  | reachable_init : reachable catalog (initial_state catalog)
  | reachable_step st o :
      reachable catalog st → reachable catalog (run_op catalog o st).

(** ** Vocabulary of the properties *)

(** *** Rotation policy *)

(** The history and the globals with which one call of [get_next_song]
    draws its song: the call first empties a full history. *)
Definition history_at_draw (songs h : list string) : list string :=
  if (length h =? length songs)%nat then [] else h.

Definition state_at_draw (emotion : string) (songs h : list string)
    (st : state) : state :=
  if (length h =? length songs)%nat
  then set_played_songs (<[emotion := []]> (played_songs st)) st
  else st.

(** Consecutive calls on one category, one drawn number per call. *)
Fixpoint get_next_songs (catalog : gmap string (list string))
    (emotion : string) (rnds : list nat) : M (list (option string)) :=
  match rnds with
  | [] => ret []
  | rnd :: rnds' =>
      let* c := get_next_song catalog emotion rnd in
      let* cs := get_next_songs catalog emotion rnds' in
      ret (c :: cs)
  end.

(** The outcomes of one call of [get_next_song]. *)
Inductive pick_outcome (catalog : gmap string (list string))
    (emotion : string) (st : state)
  : result (option string) * state → Prop :=
  | pick_none :
      default [] (catalog !! emotion) = [] →
      pick_outcome catalog emotion st (Ok None, st)
  | pick_key_error songs :
      catalog !! emotion = Some songs → songs ≠ [] →
      played_songs st !! emotion = None →
      pick_outcome catalog emotion st (Raise (KeyError emotion), st)
  | pick_index_error songs h :
      catalog !! emotion = Some songs → songs ≠ [] →
      played_songs st !! emotion = Some h →
      remaining_songs songs (history_at_draw songs h) = [] →
      pick_outcome catalog emotion st
        (Raise IndexError, state_at_draw emotion songs h st)
  | pick_song songs h c :
      catalog !! emotion = Some songs → songs ≠ [] →
      played_songs st !! emotion = Some h →
      c ∈ remaining_songs songs (history_at_draw songs h) →
      pick_outcome catalog emotion st
        (Ok (Some c),
         set_played_songs
           (<[emotion := history_at_draw songs h ++ [c]]> (played_songs st)) st).

(** A catalog that lists no song twice. *)
Definition catalog_unique (catalog : gmap string (list string)) : Prop :=
  ∀ e songs, catalog !! e = Some songs → NoDup songs.

(** The catalog lists file names: none is the empty string. *)
Definition filenames_ok (catalog : gmap string (list string)) : Prop :=
  ∀ e songs, catalog !! e = Some songs → "" ∉ songs.

(** The history of every category is within its catalog entry. *)
Definition history_bounded (catalog : gmap string (list string))
    (st : state) : Prop :=
  ∀ e h, played_songs st !! e = Some h →
         length h ≤ length (default [] (catalog !! e)).

(** The history of every listed category exists, repeats no song and holds
    songs of the entry only. *)
Definition history_ok (catalog : gmap string (list string))
    (st : state) : Prop :=
  ∀ e songs, catalog !! e = Some songs →
    ∃ h, played_songs st !! e = Some h ∧ NoDup h ∧ h ⊆ songs.

(** *** Detection tick *)

(** The emotion that line 131 locks. *)
Definition locked_emotion (dominant : string) : string :=
  if String.eqb dominant "" then "neutral" else dominant.

(** The globals when line 132 calls [get_next_song]. *)
Definition lock_emotion (dominant : string) (confidence : float)
    (st : state) : state :=
  set_current_emotion (Some (locked_emotion dominant))
    (set_current_confidence confidence
       (set_next_emotion (Some dominant) st)).

(** Lines 133-139 on the value that [get_next_song] returned. *)
Definition assign_chosen (file_exists : string → bool)
    (chosen : option string) (st : state) : state :=
  match chosen with
  | Some song =>
      if truthy chosen && file_exists song
      then set_song_assigned true (set_current_song (Some song) st)
      else set_song_assigned false (set_current_song None st)
  | None => set_song_assigned false (set_current_song None st)
  end.

(** [song_assigned] is true exactly when a song is recorded. *)
Definition assignment_consistent (st : state) : Prop :=
  song_assigned st = true ↔ current_song st ≠ None.

(** *** Sample states and inputs *)

(** ["happy1.mp3"] assigned, the client not yet playing it. *)
Definition waiting_happy1 : state :=
  set_song_assigned true
    (set_current_song (Some "happy1.mp3")
       (set_current_emotion (Some "happy") (initial_state emotion_to_songs))).

(** Both songs of ["happy"] served. *)
Definition happy_played_out : state :=
  set_played_songs
    (<["happy" := ["happy2.mp3"; "happy1.mp3"]]>
       (initial_played_songs emotion_to_songs))
    (initial_state emotion_to_songs).

(** No camera can be opened. *)
Definition no_camera : world :=
  {| w_cam_is_open := false;
     w_cam_reopens := false;
     w_frame_ok := false;
     w_now := 0.0%float;
     w_detected := None;
     w_rnd := 0;
     w_file_exists := λ _, true;
     w_blank_jpeg := "";
     w_frame_jpeg := None |}.

(** The recorded song is a song of the locked emotion and the last one
    entered in that emotion's history. *)
Definition song_matches_lock (catalog : gmap string (list string))
    (st : state) : Prop :=
  ∀ s, current_song st = Some s →
    s ≠ ""
    ∧ ∃ e songs h,
        current_emotion st = Some e
        ∧ catalog !! e = Some songs
        ∧ s ∈ songs
        ∧ played_songs st !! e = Some h
        ∧ last h = Some s.

(** *** Routes and frame generator *)

(** The value of a key of a JSON object. *)
Fixpoint fields_get (key : string) (fields : list (string * json))
  : option json :=
  match fields with
  | [] => None
  | (k, v) :: fields' => if String.eqb key k then Some v else fields_get key fields'
  end.

Definition json_field (key : string) (j : json) : option json :=
  match j with
  | JObj fields => fields_get key fields
  | _ => None
  end.

(** What an iteration that holds a frame emits at its end (lines 151-156). *)
Definition frame_event (w : world) : event :=
  match w_frame_jpeg w with
  | None => Sleep 0x1.47ae147ae147bp-7%float
  | Some jpeg => Yield (frame_chunk jpeg)
  end.

(** The test of line 104. *)
Definition tick_due (w : world) (last_detection : float) : bool :=
  PrimFloat.leb DETECT_INTERVAL (w_now w - last_detection)%float.

(** A camera, a frame at two seconds and a detector that raises. *)
Definition frame_at_2s : world :=
  {| w_cam_is_open := true;
     w_cam_reopens := false;
     w_frame_ok := true;
     w_now := 2.0%float;
     w_detected := None;
     w_rnd := 0;
     w_file_exists := λ _, true;
     w_blank_jpeg := "";
     w_frame_jpeg := Some "jpeg" |}.

(** The operations that the frame generator performs. *)
Definition is_detect (o : op) : Prop :=
  match o with
  | Detect _ _ _ _ => True
  | _ => False
  end.

(** * Properties *)

(** ** Running the monad *)

Lemma bind_ok {A B} (m : M A) (f : A → M B) st a st' :
  m st = (Ok a, st') → bind m f st = f a st'.
Proof. unfold bind. intros ->. reflexivity. Qed.

Lemma bind_raise {A B} (m : M A) (f : A → M B) st e st' :
  m st = (Raise e, st') → bind m f st = (Raise e, st').
Proof. unfold bind. intros ->. reflexivity. Qed.

Ltac run_state :=
  cbv [bind ret gets modify raise
       set_played_songs set_current_emotion set_next_emotion
       set_current_confidence set_current_song set_song_assigned
       set_song_playing]; cbn [fst snd played_songs current_emotion
       next_emotion current_confidence current_song song_assigned
       song_playing].

Example pick_happy_0 :
  fst (get_next_song emotion_to_songs "happy" 0 (initial_state emotion_to_songs))
  = Ok (Some "happy1.mp3").
Proof. vm_compute. reflexivity. Qed.

(** ** Client notifications *)

(** C3: [song_ended] answers [{ok: true}] from every state and leaves
    [song_assigned = False], [song_playing = False], [current_song = None];
    the locked emotion (and every other global) keeps its value.  On a state
    that is already idle with no song it changes nothing, and doing it twice
    is the same as doing it once. *)
Theorem song_ended_clears_assignment (st : state) :
  let st' := snd (song_ended st) in
  fst (song_ended st) = Ok ok_response
  ∧ song_assigned st' = false
  ∧ song_playing st' = false
  ∧ current_song st' = None
  ∧ current_emotion st' = current_emotion st
  ∧ next_emotion st' = next_emotion st
  ∧ current_confidence st' = current_confidence st
  ∧ played_songs st' = played_songs st
  ∧ (idle st = true → current_song st = None → st' = st)
  ∧ song_ended st' = (Ok ok_response, st').
Proof.
  destruct st as [ps ce ne cc cs sa sp].
  unfold song_ended, idle. run_state.
  repeat split.
  intros Hidle ->. destruct sa, sp; try discriminate. reflexivity.
Qed.

Lemma song_ended_idle_witness :
  snd (song_ended (initial_state emotion_to_songs))
  = initial_state emotion_to_songs.
Proof.
  pose proof (song_ended_clears_assignment (initial_state emotion_to_songs)) as H.
  cbv zeta in H.
  destruct H as (_ & _ & _ & _ & _ & _ & _ & _ & H & _).
  apply H; reflexivity.
Defined.

(** C5: [song_started] answers [{ok: true}] from every state, sets
    [song_playing = True] and leaves every other global, in particular
    [song_assigned], [current_song] and the locked emotion, as it was.  It is
    idempotent, and when the song is already playing nothing changes. *)
Theorem song_started_sets_playing (st : state) :
  let st' := snd (song_started st) in
  fst (song_started st) = Ok ok_response
  ∧ song_playing st' = true
  ∧ song_assigned st' = song_assigned st
  ∧ current_song st' = current_song st
  ∧ current_emotion st' = current_emotion st
  ∧ next_emotion st' = next_emotion st
  ∧ current_confidence st' = current_confidence st
  ∧ played_songs st' = played_songs st
  ∧ song_started st' = (Ok ok_response, st')
  ∧ (song_playing st = true → st' = st).
Proof.
  destruct st as [ps ce ne cc cs sa sp].
  unfold song_started. run_state.
  repeat split.
  intros ->. reflexivity.
Qed.

Lemma song_started_playing_witness :
  snd (song_started (set_song_playing true (initial_state emotion_to_songs)))
  = set_song_playing true (initial_state emotion_to_songs).
Proof.
  pose proof (song_started_sets_playing
                (set_song_playing true (initial_state emotion_to_songs))) as H.
  cbv zeta in H.
  destruct H as (_ & _ & _ & _ & _ & _ & _ & _ & _ & H).
  apply H; reflexivity.
Defined.

(** ** Detection tick *)

Lemma detect_tick_busy catalog dominant confidence rnd file_exists st :
  idle st = false →
  detect_tick catalog dominant confidence rnd file_exists st
  = (Ok tt, set_current_confidence confidence
              (set_next_emotion (Some dominant) st)).
Proof.
  intros Hidle. destruct st as [ps ce ne cc cs sa sp].
  unfold detect_tick, idle in *. run_state. cbn in Hidle.
  rewrite Hidle. reflexivity.
Qed.

(** C4: a detection tick that finds a song assigned or playing returns
    normally and overwrites [next_emotion] and [current_confidence] only:
    the locked emotion, the assigned song, both flags and the playback
    history are untouched. *)
Theorem detect_tick_busy_frame catalog dominant confidence rnd file_exists st :
  song_assigned st = true ∨ song_playing st = true →
  let r := detect_tick catalog dominant confidence rnd file_exists st in
  fst r = Ok tt
  ∧ next_emotion (snd r) = Some dominant
  ∧ current_confidence (snd r) = confidence
  ∧ current_emotion (snd r) = current_emotion st
  ∧ current_song (snd r) = current_song st
  ∧ song_assigned (snd r) = song_assigned st
  ∧ song_playing (snd r) = song_playing st
  ∧ played_songs (snd r) = played_songs st.
Proof.
  intros Hbusy. cbv zeta.
  rewrite detect_tick_busy.
  - repeat split.
  - unfold idle. destruct Hbusy as [-> | ->]; [reflexivity|].
    apply andb_false_r.
Qed.

Lemma detect_tick_busy_frame_witness :
  current_emotion
    (snd (detect_tick emotion_to_songs "sad" 0.5%float 1 (λ _, true)
            waiting_happy1))
  = Some "happy".
Proof.
  pose proof (detect_tick_busy_frame emotion_to_songs "sad" 0.5%float 1
                (λ _, true) waiting_happy1 (or_introl eq_refl)) as H.
  cbv zeta in H.
  destruct H as (_ & _ & _ & H & _).
  rewrite H. reflexivity.
Defined.

(** ** Rotation policy *)

Lemma get_next_song_eq catalog emotion rnd st songs h :
  catalog !! emotion = Some songs →
  songs ≠ [] →
  played_songs st !! emotion = Some h →
  let h0 := history_at_draw songs h in
  let remaining := remaining_songs songs h0 in
  get_next_song catalog emotion rnd st =
  match remaining !! (rnd `mod` length remaining) with
  | Some c =>
      (Ok (Some c),
       set_played_songs (<[emotion := h0 ++ [c]]> (played_songs st)) st)
  | None => (Raise IndexError, state_at_draw emotion songs h st)
  end.
Proof.
  intros Hcat Hne Hh. cbv zeta.
  unfold get_next_song, history_at_draw, state_at_draw. rewrite Hcat.
  cbv [from_option id].
  destruct songs as [|s songs']; [done|].
  destruct st as [ps ce ne cc cs sa sp]. cbn in Hh.
  unfold random_choice, played_of, store_played. run_state. rewrite Hh.
  destruct (length h =? length (s :: songs'))%nat; run_state.
  - rewrite lookup_insert_eq.
    destruct (remaining_songs (s :: songs') [] !! _); run_state; [|done].
    rewrite lookup_insert_eq. run_state. rewrite insert_insert_eq. done.
  - rewrite Hh.
    destruct (remaining_songs (s :: songs') h !! _); run_state; [|done].
    rewrite Hh. run_state. done.
Qed.

Lemma get_next_song_no_songs catalog emotion rnd st :
  default [] (catalog !! emotion) = [] →
  get_next_song catalog emotion rnd st = (Ok None, st).
Proof. unfold get_next_song. intros ->. reflexivity. Qed.

(** C6: for a label that the catalog does not list, or lists with no
    songs, [get_next_song] returns [None] without raising and leaves the
    globals, the history of every category included, as they were. *)
Theorem get_next_song_unknown catalog emotion rnd st :
  catalog !! emotion = None ∨ catalog !! emotion = Some [] →
  get_next_song catalog emotion rnd st = (Ok None, st).
Proof.
  intros H. apply get_next_song_no_songs.
  destruct H as [-> | ->]; reflexivity.
Qed.

Lemma get_next_song_unknown_witness :
  get_next_song emotion_to_songs "surprise" 3 (initial_state emotion_to_songs)
  = (Ok None, initial_state emotion_to_songs).
Proof.
  apply (get_next_song_unknown emotion_to_songs "surprise" 3).
  left. reflexivity.
Defined.

(** *** Facts about the draw *)

Lemma elem_of_remaining_songs songs h x :
  x ∈ remaining_songs songs h ↔ x ∈ songs ∧ x ∉ h.
Proof.
  unfold remaining_songs.
  rewrite list_elem_of_difference, elem_of_remove_dups. reflexivity.
Qed.

Lemma remove_dups_NoDup (l : list string) : NoDup l → remove_dups l = l.
Proof.
  induction 1 as [|x l Hx Hnd IH]; [done|].
  cbn. destruct (decide_rel elem_of x l); [done|]. by rewrite IH.
Qed.

Lemma list_difference_nil (l : list string) : list_difference l [] = l.
Proof.
  induction l as [|x l IH]; [done|].
  cbn. destruct (decide_rel elem_of x []) as [H|_]; [by apply not_elem_of_nil in H|].
  by rewrite IH.
Qed.

Lemma remaining_songs_nil songs : NoDup songs → remaining_songs songs [] = songs.
Proof.
  intros Hnd. unfold remaining_songs.
  by rewrite remove_dups_NoDup, list_difference_nil.
Qed.

Lemma choice_in_range (rnd : nat) (l : list string) :
  l ≠ [] → ∃ c, l !! (rnd `mod` length l) = Some c ∧ c ∈ l.
Proof.
  intros Hne.
  destruct (lookup_lt_is_Some_2 l (rnd `mod` length l)) as [c Hc].
  - apply Nat.mod_upper_bound. destruct l; [done|]. cbn. lia.
  - exists c. split; [done|]. by eapply list_elem_of_lookup_2.
Qed.

(** Every element of the sequence is drawn for some number. *)
Lemma choice_complete (l : list string) c :
  c ∈ l → ∃ rnd, l !! (rnd `mod` length l) = Some c.
Proof.
  intros [i Hi]%list_elem_of_lookup_1. exists i.
  rewrite Nat.mod_small; [done|]. by eapply lookup_lt_Some.
Qed.

Lemma history_length_le (songs h : list string) :
  NoDup h → h ⊆ songs → length h ≤ length songs.
Proof.
  intros Hnd Hsub. apply submseteq_length. by apply NoDup_submseteq.
Qed.

Lemma remaining_songs_nonempty (songs h : list string) :
  NoDup songs → length h < length songs → remaining_songs songs h ≠ [].
Proof.
  intros Hnd Hlt Hnil.
  assert (songs ⊆ h) as Hsub.
  { intros x Hx. destruct (decide (x ∈ h)) as [|Hnot]; [done|].
    assert (x ∈ remaining_songs songs h) as Hrem
      by (by apply elem_of_remaining_songs).
    rewrite Hnil in Hrem. by apply not_elem_of_nil in Hrem. }
  pose proof (history_length_le h songs Hnd Hsub). lia.
Qed.

Lemma history_at_draw_spec (songs h : list string) :
  songs ≠ [] → NoDup h → h ⊆ songs →
  let h0 := history_at_draw songs h in
  NoDup h0 ∧ h0 ⊆ songs ∧ length h0 < length songs.
Proof.
  intros Hne Hnd Hsub. cbv zeta. unfold history_at_draw.
  destruct (Nat.eqb_spec (length h) (length songs)) as [Heq|Hneq].
  - split; [constructor|]. split; [by intros x Hx%not_elem_of_nil|].
    destruct songs; [done|]. cbn. lia.
  - split; [done|]. split; [done|].
    pose proof (history_length_le songs h Hnd Hsub). lia.
Qed.

(** One call on a category with songs, from a history without repeats
    that lies within the catalog: a song outside the history at the draw is
    returned and appended. *)
Lemma get_next_song_fresh catalog emotion rnd st songs h :
  catalog !! emotion = Some songs →
  NoDup songs → songs ≠ [] →
  played_songs st !! emotion = Some h →
  NoDup h → h ⊆ songs →
  ∃ c,
    get_next_song catalog emotion rnd st
    = (Ok (Some c),
       set_played_songs
         (<[emotion := history_at_draw songs h ++ [c]]> (played_songs st)) st)
    ∧ c ∈ songs ∧ c ∉ history_at_draw songs h.
Proof.
  intros Hcat Hnds Hne Hh Hndh Hsub.
  destruct (history_at_draw_spec songs h Hne Hndh Hsub) as (_ & _ & Hlt).
  rewrite (get_next_song_eq catalog emotion rnd st songs h Hcat Hne Hh).
  cbv zeta.
  destruct (choice_in_range rnd (remaining_songs songs (history_at_draw songs h)))
    as (c & -> & Hc).
  { by apply remaining_songs_nonempty. }
  apply elem_of_remaining_songs in Hc as [Hc1 Hc2].
  exists c. done.
Qed.

(** *** A rotation cycle *)

(** The catalog of the source lists no song twice and no empty name. *)
Lemma emotion_to_songs_unique e songs :
  emotion_to_songs !! e = Some songs → NoDup songs ∧ "" ∉ songs.
Proof.
  intros H%elem_of_list_to_map_2.
  repeat (apply elem_of_cons in H as [[= -> ->] | H]; [split; compute_done|]).
  by apply not_elem_of_nil in H.
Qed.

Lemma history_at_draw_short (songs h : list string) :
  length h < length songs → history_at_draw songs h = h.
Proof.
  intros Hlt. unfold history_at_draw.
  destruct (Nat.eqb_spec (length h) (length songs)); [lia|done].
Qed.

Lemma history_at_draw_full (songs h : list string) :
  length h = length songs → history_at_draw songs h = [].
Proof. intros Heq. unfold history_at_draw. by rewrite Heq, Nat.eqb_refl. Qed.

Lemma get_next_songs_fresh catalog emotion songs :
  catalog !! emotion = Some songs →
  NoDup songs →
  ∀ rnds st h,
    played_songs st !! emotion = Some h →
    NoDup h → h ⊆ songs →
    length h + length rnds ≤ length songs →
    ∃ picked st',
      get_next_songs catalog emotion rnds st = (Ok (Some <$> picked), st')
      ∧ length picked = length rnds
      ∧ played_songs st' !! emotion = Some (h ++ picked)
      ∧ NoDup (h ++ picked)
      ∧ h ++ picked ⊆ songs.
Proof.
  intros Hcat Hnds rnds.
  induction rnds as [|rnd rnds IH]; intros st h Hh Hndh Hsub Hlen.
  - exists [], st. rewrite app_nil_r. done.
  - cbn [length] in Hlen.
    assert (songs ≠ []) as Hne by (intros ->; cbn in Hlen; lia).
    destruct (get_next_song_fresh catalog emotion rnd st songs h)
      as (c & Hstep & Hc & Hfresh); try done.
    rewrite history_at_draw_short in Hstep, Hfresh by lia.
    set (st1 := set_played_songs (<[emotion := h ++ [c]]> (played_songs st)) st)
      in *.
    destruct (IH st1 (h ++ [c])) as (picked & st' & Hrun & Hlen' & Hh' & Hnd' & Hsub').
    + unfold st1. cbn. apply lookup_insert_eq.
    + apply NoDup_app. split; [done|]. split; [|apply NoDup_singleton].
      intros x Hx ->%list_elem_of_singleton. done.
    + intros x [Hx | ->%list_elem_of_singleton]%elem_of_app; [by apply Hsub|done].
    + rewrite length_app. cbn. lia.
    + exists (c :: picked), st'.
      rewrite <- app_assoc in Hh', Hnd', Hsub'. cbn in Hh', Hnd', Hsub'.
      split; [|by cbn; rewrite Hlen'].
      cbn [get_next_songs].
      rewrite (bind_ok _ _ _ _ _ Hstep), (bind_ok _ _ _ _ _ Hrun). done.
Qed.

(** The scenario of two songs: four calls serve both songs, then both
    again. *)
Example four_picks_happy :
  fst (get_next_songs emotion_to_songs "happy" [1; 7; 0; 3]
         (initial_state emotion_to_songs))
  = Ok [Some "happy2.mp3"; Some "happy1.mp3";
        Some "happy1.mp3"; Some "happy2.mp3"].
Proof. vm_compute. reflexivity. Qed.

(** C1: on a category with [N >= 1] distinct songs, [N] consecutive calls
    of [get_next_song] from an empty history, whatever numbers are drawn,
    all return a song; the [N] songs are pairwise different and are exactly
    the songs of the catalog entry.  After them every song of the entry can
    be returned by the next call. *)
Theorem rotation_cycle catalog emotion songs rnds st :
  catalog !! emotion = Some songs →
  NoDup songs →
  1 ≤ length songs →
  played_songs st !! emotion = Some [] →
  length rnds = length songs →
  ∃ picked st',
    get_next_songs catalog emotion rnds st = (Ok (Some <$> picked), st')
    ∧ length picked = length songs
    ∧ NoDup picked
    ∧ picked ≡ₚ songs
    ∧ (∀ s, s ∈ picked ↔ s ∈ songs)
    ∧ (∀ s, s ∈ songs →
         ∃ rnd st'', get_next_song catalog emotion rnd st' = (Ok (Some s), st'')).
Proof.
  intros Hcat Hnds Hpos Hempty Hlen.
  destruct (get_next_songs_fresh catalog emotion songs Hcat Hnds rnds st [])
    as (picked & st' & Hrun & Hlen' & Hh' & Hnd' & Hsub').
  { exact Hempty. }
  { constructor. }
  { intros x Hx. by apply not_elem_of_nil in Hx. }
  { cbn [length]. lia. }
  cbn in Hh', Hnd', Hsub'.
  assert (picked ≡ₚ songs) as Hperm.
  { apply submseteq_length_Permutation; [by apply NoDup_submseteq|lia]. }
  exists picked, st'. repeat split; try done; try lia.
  - by rewrite Hperm.
  - by rewrite Hperm.
  - intros s Hs.
    assert (songs ≠ []) as Hne by (intros ->; cbn in Hpos; lia).
    pose proof (get_next_song_eq catalog emotion) as Heq.
    destruct (choice_complete songs s Hs) as [rnd Hrnd].
    exists rnd. eexists.
    rewrite (Heq rnd st' songs picked Hcat Hne Hh'). cbv zeta.
    rewrite history_at_draw_full by lia.
    rewrite remaining_songs_nil by done. rewrite Hrnd. reflexivity.
Qed.

Lemma rotation_cycle_witness :
  ∃ picked st',
    get_next_songs emotion_to_songs "happy" [1; 4]
      (initial_state emotion_to_songs) = (Ok (Some <$> picked), st')
    ∧ picked ≡ₚ ["happy1.mp3"; "happy2.mp3"].
Proof.
  destruct (rotation_cycle emotion_to_songs "happy"
              ["happy1.mp3"; "happy2.mp3"] [1; 4]
              (initial_state emotion_to_songs))
    as (picked & st' & Hrun & _ & _ & Hperm & _).
  - reflexivity.
  - compute_done.
  - cbn. lia.
  - reflexivity.
  - reflexivity.
  - exists picked, st'. split; assumption.
Defined.

(** *** Every outcome of one call *)

Lemma get_next_song_KeyError catalog emotion rnd st songs :
  catalog !! emotion = Some songs →
  songs ≠ [] →
  played_songs st !! emotion = None →
  get_next_song catalog emotion rnd st = (Raise (KeyError emotion), st).
Proof.
  intros Hcat Hne Hh. unfold get_next_song. rewrite Hcat. cbv [from_option id].
  destruct songs as [|s songs']; [done|].
  unfold played_of. run_state. by rewrite Hh.
Qed.

Lemma get_next_song_outcome catalog emotion rnd st :
  pick_outcome catalog emotion st (get_next_song catalog emotion rnd st).
Proof.
  destruct (catalog !! emotion) as [songs|] eqn:Hcat.
  2: { rewrite get_next_song_no_songs by (by rewrite Hcat).
       constructor. by rewrite Hcat. }
  destruct (decide (songs = [])) as [->|Hne].
  { rewrite get_next_song_no_songs by (by rewrite Hcat).
    constructor. by rewrite Hcat. }
  destruct (played_songs st !! emotion) as [h|] eqn:Hh.
  2: { erewrite get_next_song_KeyError by done. by econstructor. }
  rewrite (get_next_song_eq catalog emotion rnd st songs h Hcat Hne Hh).
  cbv zeta.
  set (remaining := remaining_songs songs (history_at_draw songs h)).
  destruct (decide (remaining = [])) as [Hnil|Hrem].
  - rewrite Hnil. cbn. by econstructor.
  - destruct (choice_in_range rnd remaining Hrem) as (c & -> & Hc).
    by econstructor.
Qed.

(** The call writes [played_songs] and nothing else. *)
Lemma get_next_song_frame catalog emotion rnd st :
  ∃ ps, snd (get_next_song catalog emotion rnd st) = set_played_songs ps st.
Proof.
  destruct (get_next_song_outcome catalog emotion rnd st); cbn [snd].
  - exists (played_songs st). by destruct st.
  - exists (played_songs st). by destruct st.
  - unfold state_at_draw. destruct (_ =? _); [by eexists|].
    exists (played_songs st). by destruct st.
  - by eexists.
Qed.

Lemma get_next_song_in_catalog catalog emotion rnd st song st' :
  get_next_song catalog emotion rnd st = (Ok (Some song), st') →
  ∃ songs, catalog !! emotion = Some songs ∧ song ∈ songs.
Proof.
  intros Heq.
  destruct (get_next_song_outcome catalog emotion rnd st) as [| | |songs h c Hcat _ _ Hc];
    try discriminate.
  injection Heq as <- _. exists songs. split; [done|].
  by apply elem_of_remaining_songs in Hc as [? _].
Qed.

(** ** Detection tick from the idle state *)

Lemma py_or_locked dominant :
  py_or (Some dominant) "neutral" = locked_emotion dominant.
Proof.
  unfold py_or, truthy, locked_emotion.
  by destruct (String.eqb dominant "").
Qed.

Lemma detect_tick_idle_eq catalog dominant confidence rnd file_exists st :
  idle st = true →
  detect_tick catalog dominant confidence rnd file_exists st
  = match get_next_song catalog (locked_emotion dominant) rnd
            (lock_emotion dominant confidence st) with
    | (Ok chosen, st') => (Ok tt, assign_chosen file_exists chosen st')
    | (Raise e, st') => (Raise e, st')
    end.
Proof.
  intros Hidle. destruct st as [ps ce ne cc cs sa sp].
  unfold detect_tick, lock_emotion, idle in *. cbn in Hidle. run_state.
  rewrite Hidle. run_state. rewrite !py_or_locked.
  destruct (get_next_song _ _ _ _) as [[chosen|e] st']; [|done].
  unfold assign_chosen. destruct chosen as [song|]; [|by run_state].
  destruct (truthy (Some song) && file_exists song); by run_state.
Qed.

Lemma emotion_to_songs_filenames_ok : filenames_ok emotion_to_songs.
Proof. intros e songs H. by apply emotion_to_songs_unique in H as [_ ?]. Qed.

(** C2: a detection tick that finds no song assigned and none playing
    stores the detected emotion and confidence and locks the detected
    emotion, or ["neutral"] when the label is empty.  It then asks the
    rotation policy for a song of the locked emotion: when a song comes
    back and its file exists, that song is recorded and [song_assigned]
    becomes [True] with [song_playing] still [False]; when no song comes
    back, or the file is missing, [current_song] is [None] and
    [song_assigned] is [False], the locked emotion staying updated.  The
    history is the one the rotation policy left. *)
Theorem detect_tick_idle_assigns catalog dominant confidence rnd file_exists st :
  filenames_ok catalog →
  song_assigned st = false →
  song_playing st = false →
  let locked := if String.eqb dominant "" then "neutral" else dominant in
  let pick := get_next_song catalog locked rnd
                (lock_emotion dominant confidence st) in
  let r := detect_tick catalog dominant confidence rnd file_exists st in
  next_emotion (snd r) = Some dominant
  ∧ current_confidence (snd r) = confidence
  ∧ current_emotion (snd r) = Some locked
  ∧ song_playing (snd r) = false
  ∧ played_songs (snd r) = played_songs (snd pick)
  ∧ match fst pick with
    | Ok (Some song) =>
        fst r = Ok tt
        ∧ if file_exists song
          then current_song (snd r) = Some song ∧ song_assigned (snd r) = true
          else current_song (snd r) = None ∧ song_assigned (snd r) = false
    | Ok None =>
        fst r = Ok tt
        ∧ current_song (snd r) = None ∧ song_assigned (snd r) = false
    | Raise e => fst r = Raise e
    end.
Proof.
  intros Hnames Hsa Hsp. cbv zeta.
  fold (locked_emotion dominant).
  rewrite detect_tick_idle_eq by (unfold idle; by rewrite Hsa, Hsp).
  destruct (get_next_song_frame catalog (locked_emotion dominant) rnd
              (lock_emotion dominant confidence st)) as [ps Hps].
  destruct (get_next_song _ _ _ _) as [[chosen|e] st'] eqn:Hpick;
    cbn [fst snd] in *; subst st'.
  2: { destruct st. cbn in Hsp. subst. by cbn. }
  destruct chosen as [song|].
  - apply get_next_song_in_catalog in Hpick as (songs & Hcat & Hin).
    assert (song ≠ "") as Hsong by (intros ->; by eapply Hnames).
    apply String.eqb_neq in Hsong.
    unfold assign_chosen, truthy. rewrite Hsong. cbn [negb andb].
    destruct st. cbn in Hsp. subst. by destruct (file_exists song).
  - destruct st. cbn in Hsp. subst. by cbn.
Qed.

Lemma detect_tick_idle_assigns_witness :
  let r := detect_tick emotion_to_songs "happy" 0.5%float 0 (λ _, true)
             (initial_state emotion_to_songs) in
  current_emotion (snd r) = Some "happy"
  ∧ current_song (snd r) = Some "happy1.mp3"
  ∧ song_assigned (snd r) = true.
Proof.
  pose proof (detect_tick_idle_assigns emotion_to_songs "happy" 0.5%float 0
                (λ _, true) (initial_state emotion_to_songs)
                emotion_to_songs_filenames_ok eq_refl eq_refl) as H.
  cbv zeta in H. destruct H as (_ & _ & Hce & _ & _ & Hpick).
  vm_compute in Hpick. destruct Hpick as (_ & Hcs & Hsa).
  cbv zeta. split; [exact Hce|]. split; [exact Hcs|exact Hsa].
Defined.

(** ** The assignment flag and the assigned song *)

Lemma initial_consistent catalog : assignment_consistent (initial_state catalog).
Proof. unfold assignment_consistent. cbn. split; [discriminate|done]. Qed.

Lemma assign_chosen_consistent file_exists chosen st :
  assignment_consistent (assign_chosen file_exists chosen st).
Proof.
  unfold assign_chosen, assignment_consistent.
  destruct chosen as [song|]; [destruct (_ && _)|]; cbn;
    (split; [discriminate || done | done]).
Qed.

Lemma run_op_consistent catalog o st :
  assignment_consistent st → assignment_consistent (run_op catalog o st).
Proof.
  intros Hst. destruct o as [dominant confidence rnd file_exists| |]; cbn [run_op].
  - destruct (idle st) eqn:Hidle.
    + rewrite detect_tick_idle_eq by done.
      destruct (get_next_song_frame catalog (locked_emotion dominant) rnd
                  (lock_emotion dominant confidence st)) as [ps Hps].
      destruct (get_next_song _ _ _ _) as [[chosen|e] st']; cbn [snd] in *.
      * apply assign_chosen_consistent.
      * subst st'. by destruct st.
    + rewrite detect_tick_busy by done. by destruct st.
  - by destruct st.
  - unfold assignment_consistent. destruct st. cbn. split; [discriminate|done].
Qed.

Lemma reachable_consistent catalog st :
  reachable catalog st → assignment_consistent st.
Proof.
  induction 1 as [|st o _ IH].
  - apply initial_consistent.
  - by apply run_op_consistent.
Qed.

(** In a run of the server an open guard means that no song is recorded. *)
Lemma reachable_idle_no_song catalog st :
  reachable catalog st → idle st = true → current_song st = None.
Proof.
  intros Hst%reachable_consistent Hidle. unfold idle in Hidle.
  destruct (song_assigned st) eqn:Hsa; [done|].
  destruct (current_song st) as [song|] eqn:Hcs; [|done].
  unfold assignment_consistent in Hst. rewrite Hsa, Hcs in Hst.
  by destruct Hst as [_ ?%symmetry].
Qed.

(** C9: [song_assigned] is true exactly when [current_song] is not
    [None].  This holds when the module is loaded, every operation (a
    detection tick with any inputs, [song_started], [song_ended]) preserves
    it, and so it holds in every state the server can reach. *)
Theorem assigned_iff_song catalog :
  assignment_consistent (initial_state catalog)
  ∧ (∀ st o, assignment_consistent st →
             assignment_consistent (run_op catalog o st))
  ∧ (∀ st, reachable catalog st →
           (song_assigned st = true ↔ current_song st ≠ None)).
Proof.
  split; [apply initial_consistent|].
  split; [intros st o; apply run_op_consistent|].
  intros st. apply reachable_consistent.
Qed.

Lemma assigned_iff_song_witness :
  assignment_consistent
    (run_op emotion_to_songs (Detect "sad" 0.5%float 1 (λ _, true))
       (initial_state emotion_to_songs)).
Proof.
  destruct (assigned_iff_song emotion_to_songs) as (Hinit & Hstep & _).
  apply Hstep. exact Hinit.
Defined.

(** ** A start notification with no song assigned *)

Lemma run_op_while_playing catalog o st :
  song_playing st = true →
  o ≠ ClientEnded →
  let st' := run_op catalog o st in
  song_playing st' = true
  ∧ song_assigned st' = song_assigned st
  ∧ current_song st' = current_song st
  ∧ current_emotion st' = current_emotion st
  ∧ played_songs st' = played_songs st.
Proof.
  intros Hsp Ho. destruct o as [dominant confidence rnd file_exists| |];
    [| |done]; cbn [run_op]; cbv zeta.
  - rewrite detect_tick_busy.
    + by destruct st.
    + unfold idle. rewrite Hsp. apply andb_false_r.
  - by destruct st.
Qed.

Lemma run_ops_while_playing catalog ops :
  Forall (λ o, o ≠ ClientEnded) ops →
  ∀ st, song_playing st = true →
    let st' := run_ops catalog ops st in
    song_playing st' = true
    ∧ song_assigned st' = song_assigned st
    ∧ current_song st' = current_song st
    ∧ current_emotion st' = current_emotion st
    ∧ played_songs st' = played_songs st.
Proof.
  induction 1 as [|o ops Ho _ IH]; intros st Hsp; cbv zeta; [done|].
  destruct (run_op_while_playing catalog o st Hsp Ho) as (H1 & H2 & H3 & H4 & H5).
  destruct (IH (run_op catalog o st) H1) as (H1' & H2' & H3' & H4' & H5').
  unfold run_ops in *. cbn [foldl]. repeat split; congruence.
Qed.

(** C10: when [song_started] arrives with no song assigned, the globals
    have [song_playing = True] and [song_assigned = False].  From there any
    sequence of detection ticks and further start notifications leaves
    [song_assigned] false and the assigned song, the locked emotion and the
    playback history as they were; only [song_ended] reopens the guard of
    the detection tick. *)
Theorem started_while_idle_blocks catalog ops st :
  song_assigned st = false →
  Forall (λ o, o ≠ ClientEnded) ops →
  let st1 := snd (song_started st) in
  let st2 := run_ops catalog ops st1 in
  (song_playing st1 = true ∧ song_assigned st1 = false)
  ∧ song_playing st2 = true
  ∧ song_assigned st2 = false
  ∧ current_song st2 = current_song st
  ∧ current_emotion st2 = current_emotion st
  ∧ played_songs st2 = played_songs st
  ∧ idle st2 = false
  ∧ idle (run_op catalog ClientEnded st2) = true.
Proof.
  intros Hsa Hops. cbv zeta.
  set (st1 := snd (song_started st)).
  assert (song_playing st1 = true ∧ song_assigned st1 = false
          ∧ current_song st1 = current_song st
          ∧ current_emotion st1 = current_emotion st
          ∧ played_songs st1 = played_songs st) as (Hp & Ha & Hs & He & Hh).
  { unfold st1. destruct st. cbn in *. done. }
  destruct (run_ops_while_playing catalog ops Hops st1 Hp)
    as (H1 & H2 & H3 & H4 & H5).
  assert (idle (run_ops catalog ops st1) = false) as Hbusy.
  { unfold idle. rewrite H1. apply andb_false_r. }
  assert (idle (run_op catalog ClientEnded (run_ops catalog ops st1)) = true)
    as Hidle by reflexivity.
  split; [by split|].
  repeat (split; [congruence|]). exact Hidle.
Qed.

Lemma started_while_idle_blocks_witness :
  let st2 := run_ops emotion_to_songs
               [Detect "happy" 0.5%float 0 (λ _, true); ClientStarted;
                Detect "sad" 0.5%float 1 (λ _, true)]
               (snd (song_started (initial_state emotion_to_songs))) in
  song_assigned st2 = false ∧ current_emotion st2 = None.
Proof.
  pose proof (started_while_idle_blocks emotion_to_songs
                [Detect "happy" 0.5%float 0 (λ _, true); ClientStarted;
                 Detect "sad" 0.5%float 1 (λ _, true)]
                (initial_state emotion_to_songs) eq_refl) as H.
  cbv zeta in H.
  destruct H as (_ & _ & Ha & _ & He & _).
  - repeat constructor; discriminate.
  - split; [exact Ha|exact He].
Defined.

(** ** Size of the playback history *)

Lemma history_bounded_ext catalog st st' :
  played_songs st' = played_songs st →
  history_bounded catalog st → history_bounded catalog st'.
Proof. unfold history_bounded. by intros ->. Qed.

Lemma initial_bounded catalog : history_bounded catalog (initial_state catalog).
Proof.
  intros e h. cbn. unfold initial_played_songs. rewrite lookup_fmap.
  destruct (catalog !! e); [|done]. intros [= <-]. cbn. lia.
Qed.

Lemma history_at_draw_lt (songs h : list string) :
  songs ≠ [] → length h ≤ length songs →
  length (history_at_draw songs h) < length songs.
Proof.
  intros Hne Hle. unfold history_at_draw.
  destruct (Nat.eqb_spec (length h) (length songs)); [|lia].
  destruct songs; [done|]. cbn. lia.
Qed.

Lemma get_next_song_bounded catalog emotion rnd st :
  history_bounded catalog st →
  history_bounded catalog (snd (get_next_song catalog emotion rnd st)).
Proof.
  intros Hst.
  destruct (get_next_song_outcome catalog emotion rnd st)
    as [| |songs h Hcat Hne Hh _|songs h c Hcat Hne Hh _]; cbn [snd]; try done.
  - unfold state_at_draw. destruct (_ =? _); [|done].
    intros e h'. cbn. rewrite lookup_insert. case_decide.
    + intros [= <-]. cbn. lia.
    + apply Hst.
  - intros e h'. cbn. rewrite lookup_insert. case_decide as He.
    + subst e. intros [= <-]. rewrite Hcat. cbn [default from_option id].
      specialize (Hst emotion h Hh). rewrite Hcat in Hst.
      pose proof (history_at_draw_lt songs h Hne Hst).
      rewrite length_app. cbn. lia.
    + apply Hst.
Qed.

Lemma assign_chosen_played file_exists chosen st :
  played_songs (assign_chosen file_exists chosen st) = played_songs st.
Proof.
  unfold assign_chosen.
  destruct chosen; [destruct (_ && _)|]; by destruct st.
Qed.

Lemma run_op_bounded catalog o st :
  history_bounded catalog st → history_bounded catalog (run_op catalog o st).
Proof.
  intros Hst. destruct o as [dominant confidence rnd file_exists| |]; cbn [run_op].
  - destruct (idle st) eqn:Hidle.
    + rewrite detect_tick_idle_eq by done.
      pose proof (get_next_song_bounded catalog (locked_emotion dominant) rnd
                    (lock_emotion dominant confidence st)) as Hpick.
      destruct (get_next_song _ _ _ _) as [[chosen|e] st']; cbn [snd] in *.
      * eapply history_bounded_ext; [apply assign_chosen_played|].
        apply Hpick. eapply history_bounded_ext; [|done]. by destruct st.
      * apply Hpick. eapply history_bounded_ext; [|done]. by destruct st.
    + rewrite detect_tick_busy by done.
      eapply history_bounded_ext; [|done]. by destruct st.
  - eapply history_bounded_ext; [|done]. by destruct st.
  - eapply history_bounded_ext; [|done]. by destruct st.
Qed.

Lemma reachable_bounded catalog st :
  reachable catalog st → history_bounded catalog st.
Proof.
  induction 1 as [|st o _ IH].
  - apply initial_bounded.
  - by apply run_op_bounded.
Qed.

Lemma get_next_song_full catalog emotion rnd st songs h :
  catalog !! emotion = Some songs →
  songs ≠ [] →
  played_songs st !! emotion = Some h →
  length h = length songs →
  get_next_song catalog emotion rnd st =
  match remove_dups songs !! (rnd `mod` length (remove_dups songs)) with
  | Some c =>
      (Ok (Some c), set_played_songs (<[emotion := [c]]> (played_songs st)) st)
  | None =>
      (Raise IndexError,
       set_played_songs (<[emotion := []]> (played_songs st)) st)
  end.
Proof.
  intros Hcat Hne Hh Hlen.
  rewrite (get_next_song_eq catalog emotion rnd st songs h Hcat Hne Hh).
  cbv zeta. unfold state_at_draw.
  rewrite history_at_draw_full by done. rewrite Hlen, Nat.eqb_refl.
  unfold remaining_songs. rewrite list_difference_nil. reflexivity.
Qed.

(** C7: the history of a category is never longer than its catalog entry:
    this holds in every reachable state and every call of [get_next_song]
    preserves it.  A call that finds the history as long as the entry
    empties it before drawing, so the history afterwards holds the drawn
    song alone, and every song of the entry can be the one drawn. *)
Theorem history_within_catalog catalog :
  (∀ st, reachable catalog st →
     ∀ e h, played_songs st !! e = Some h →
            length h ≤ length (default [] (catalog !! e)))
  ∧ (∀ st e rnd,
       history_bounded catalog st →
       history_bounded catalog (snd (get_next_song catalog e rnd st)))
  ∧ (∀ st e rnd songs h,
       catalog !! e = Some songs → songs ≠ [] →
       played_songs st !! e = Some h →
       length h = length songs →
       ∃ c, c ∈ songs
            ∧ get_next_song catalog e rnd st
              = (Ok (Some c),
                 set_played_songs (<[e := [c]]> (played_songs st)) st))
  ∧ (∀ st e songs h s,
       catalog !! e = Some songs →
       played_songs st !! e = Some h →
       length h = length songs →
       s ∈ songs →
       ∃ rnd, get_next_song catalog e rnd st
              = (Ok (Some s),
                 set_played_songs (<[e := [s]]> (played_songs st)) st)).
Proof.
  split; [intros st Hst; by apply reachable_bounded|].
  split; [intros st e rnd; apply get_next_song_bounded|].
  split.
  - intros st e rnd songs h Hcat Hne Hh Hlen.
    rewrite (get_next_song_full catalog e rnd st songs h) by done.
    destruct (choice_in_range rnd (remove_dups songs)) as (c & -> & Hc).
    + destruct songs as [|s songs']; [done|].
      intros Hnil. assert (s ∈ remove_dups (s :: songs')) as Hs
        by (apply elem_of_remove_dups; left).
      rewrite Hnil in Hs. by apply not_elem_of_nil in Hs.
    + exists c. split; [by apply elem_of_remove_dups|done].
  - intros st e songs h s Hcat Hh Hlen Hs.
    assert (songs ≠ []) as Hne by (intros ->; by apply not_elem_of_nil in Hs).
    destruct (choice_complete (remove_dups songs) s) as [rnd Hrnd].
    { by apply elem_of_remove_dups. }
    exists rnd.
    rewrite (get_next_song_full catalog e rnd st songs h) by done.
    by rewrite Hrnd.
Qed.

Lemma history_within_catalog_witness :
  ∃ c, c ∈ ["happy1.mp3"; "happy2.mp3"]
       ∧ get_next_song emotion_to_songs "happy" 5 happy_played_out
         = (Ok (Some c),
            set_played_songs
              (<["happy" := [c]]> (played_songs happy_played_out))
              happy_played_out).
Proof.
  destruct (history_within_catalog emotion_to_songs) as (_ & _ & H & _).
  apply (H happy_played_out "happy" 5 ["happy1.mp3"; "happy2.mp3"]
           ["happy2.mp3"; "happy1.mp3"]); [reflexivity|discriminate| |reflexivity].
  vm_compute. reflexivity.
Defined.

(** ** The rotation policy never raises in a run of the server *)

Lemma history_ok_ext catalog st st' :
  played_songs st' = played_songs st →
  history_ok catalog st → history_ok catalog st'.
Proof. unfold history_ok. by intros ->. Qed.

Lemma initial_history_ok catalog : history_ok catalog (initial_state catalog).
Proof.
  intros e songs Hcat. exists []. cbn. unfold initial_played_songs.
  rewrite lookup_fmap, Hcat. split; [done|]. split; [constructor|].
  intros x Hx. by apply not_elem_of_nil in Hx.
Qed.

Lemma get_next_song_history_ok catalog emotion rnd st :
  catalog_unique catalog →
  history_ok catalog st →
  (∃ v, fst (get_next_song catalog emotion rnd st) = Ok v)
  ∧ history_ok catalog (snd (get_next_song catalog emotion rnd st)).
Proof.
  intros Hcat Hst.
  destruct (decide (default [] (catalog !! emotion) = [])) as [Hnil|Hne].
  { rewrite get_next_song_no_songs by done. split; [by eexists|done]. }
  destruct (catalog !! emotion) as [songs|] eqn:Hsongs; [|done].
  cbn in Hne.
  destruct (Hst emotion songs Hsongs) as (h & Hh & Hndh & Hsub).
  destruct (get_next_song_fresh catalog emotion rnd st songs h)
    as (c & -> & Hc & Hfresh); eauto.
  destruct (history_at_draw_spec songs h Hne Hndh Hsub) as (Hnd0 & Hsub0 & _).
  split; [by eexists|].
  intros e songs' Hsongs'. cbn. rewrite lookup_insert. case_decide as He.
  - subst e. rewrite Hsongs in Hsongs'. injection Hsongs' as <-.
    eexists. split; [done|]. split.
    + apply NoDup_app. split; [done|]. split; [|apply NoDup_singleton].
      intros x Hx ->%list_elem_of_singleton. done.
    + intros x [Hx | ->%list_elem_of_singleton]%elem_of_app; [by apply Hsub0|done].
  - by apply Hst.
Qed.

Lemma detect_tick_history_ok catalog dominant confidence rnd file_exists st :
  catalog_unique catalog →
  history_ok catalog st →
  fst (detect_tick catalog dominant confidence rnd file_exists st) = Ok tt
  ∧ history_ok catalog
      (snd (detect_tick catalog dominant confidence rnd file_exists st)).
Proof.
  intros Hcat Hst. destruct (idle st) eqn:Hidle.
  - rewrite detect_tick_idle_eq by done.
    destruct (get_next_song_history_ok catalog (locked_emotion dominant) rnd
                (lock_emotion dominant confidence st) Hcat) as ([v Hv] & Hok).
    { eapply history_ok_ext; [|done]. by destruct st. }
    destruct (get_next_song _ _ _ _) as [[chosen|e] st']; cbn [fst snd] in *;
      [|done].
    split; [done|]. eapply history_ok_ext; [apply assign_chosen_played|done].
  - rewrite detect_tick_busy by done. split; [done|].
    eapply history_ok_ext; [|done]. by destruct st.
Qed.

Lemma reachable_history_ok catalog st :
  catalog_unique catalog → reachable catalog st → history_ok catalog st.
Proof.
  intros Hcat. induction 1 as [|st o _ IH].
  - apply initial_history_ok.
  - destruct o as [dominant confidence rnd file_exists| |]; cbn [run_op].
    + by apply detect_tick_history_ok.
    + eapply history_ok_ext; [|done]. by destruct st.
    + eapply history_ok_ext; [|done]. by destruct st.
Qed.

(** With a catalog that lists no song twice, as the one of the source
    does, no detection tick of a run ends in an exception. *)
Lemma reachable_detect_tick_returns catalog dominant confidence rnd file_exists st :
  catalog_unique catalog →
  reachable catalog st →
  fst (detect_tick catalog dominant confidence rnd file_exists st) = Ok tt.
Proof.
  intros Hcat Hst.
  by apply detect_tick_history_ok, reachable_history_ok.
Qed.

Lemma emotion_to_songs_catalog_unique : catalog_unique emotion_to_songs.
Proof. intros e songs H. by apply emotion_to_songs_unique in H as [? _]. Qed.

(** A catalog entry that repeats a song makes the second call raise: the
    set difference of line 62 is empty while the lengths of line 60 still
    differ. *)
Example repeated_song_raises :
  let catalog : gmap string (list string) := {["happy" := ["a.mp3"; "a.mp3"]]} in
  fst (get_next_songs catalog "happy" [0; 0] (initial_state catalog))
  = Raise IndexError.
Proof. vm_compute. reflexivity. Qed.

(** ** Frame generator *)

(** No face, or a detector that raises, counts as neutral with zero
    confidence; otherwise the first emotion of highest score wins. *)
Example classify_no_face :
  classify None = ("neutral", 0.0%float)
  ∧ classify (Some []) = ("neutral", 0.0%float)
  ∧ classify (Some [mkFace []]) = ("neutral", 0.0%float).
Proof. repeat split. Qed.

Example classify_dominant :
  classify (Some [mkFace [("angry", 0.25%float); ("happy", 0.5%float);
                          ("sad", 0.5%float)]])
  = ("happy", 0.5%float).
Proof. vm_compute. reflexivity. Qed.

(** A first iteration with a camera, a frame and no face: the tick is due,
    ["neutral"] is locked and a neutral song is assigned. *)
Example first_iteration_assigns :
  let w := {| w_cam_is_open := false; w_cam_reopens := true;
              w_frame_ok := true; w_now := 1000.0%float;
              w_detected := Some []; w_rnd := 1;
              w_file_exists := λ _, true;
              w_blank_jpeg := ""; w_frame_jpeg := Some "jpeg" |} in
  let '(evs, e, st) :=
    mjpeg_generator emotion_to_songs [w] (initial_state emotion_to_songs) in
  evs = [Yield (frame_chunk "jpeg")]
  ∧ e = None
  ∧ next_emotion st = Some "neutral"
  ∧ current_emotion st = Some "neutral"
  ∧ current_song st = Some "neutral2.mp3"
  ∧ song_assigned st = true
  ∧ song_playing st = false.
Proof. vm_compute. repeat split. Qed.

Lemma np_unbound : load_global "np" = raise (NameError "np").
Proof. reflexivity. Qed.

(** A frame that cannot be read ends the iteration with a short sleep:
    nothing is yielded and no global changes. *)
Lemma loop_iteration_read_failure catalog w last_detection st :
  ensure_camera_open w = true →
  w_frame_ok w = false →
  loop_iteration catalog w last_detection st
  = (Ok (last_detection, [Sleep 0x1.47ae147ae147bp-6%float]), st).
Proof.
  intros Hopen Hread. unfold loop_iteration. by rewrite Hopen, Hread.
Qed.

(** C8: in an iteration that finds the camera closed and cannot open it,
    line 88 reads the name [np], which the module never binds: the
    iteration raises [NameError] before the blank frame is encoded, and the
    generator ends there without a frame, a pause or a retry, whatever the
    later iterations would have found.  The globals are left as they were. *)
Theorem camera_unavailable_raises catalog w ws last_detection st :
  w_cam_is_open w = false →
  w_cam_reopens w = false →
  ensure_camera_open w = false
  ∧ loop_iteration catalog w last_detection st = (Raise (NameError "np"), st)
  ∧ mjpeg_generator_from catalog (w :: ws) last_detection st
    = ([], Some (NameError "np"), st).
Proof.
  intros Hopen Hreopen.
  assert (ensure_camera_open w = false) as Hcam
    by (unfold ensure_camera_open; by rewrite Hopen, Hreopen).
  assert (loop_iteration catalog w last_detection st
          = (Raise (NameError "np"), st)) as Hiter
    by (unfold loop_iteration; by rewrite Hcam).
  split; [done|]. split; [done|].
  cbn [mjpeg_generator_from]. by rewrite Hiter.
Qed.

Lemma camera_unavailable_raises_witness :
  mjpeg_generator emotion_to_songs [no_camera; no_camera]
    (initial_state emotion_to_songs)
  = ([], Some (NameError "np"), initial_state emotion_to_songs).
Proof.
  apply (camera_unavailable_raises emotion_to_songs no_camera [no_camera]
           0.0%float (initial_state emotion_to_songs));
    reflexivity.
Defined.

(** * Further properties of the module *)

(** ** The rotation policy and the other globals *)

Lemma get_next_song_other_history catalog emotion rnd st e :
  e ≠ emotion →
  played_songs (snd (get_next_song catalog emotion rnd st)) !! e
  = played_songs st !! e.
Proof.
  intros He.
  destruct (get_next_song_outcome catalog emotion rnd st); cbn [snd]; try done.
  - unfold state_at_draw. destruct (_ =? _); [|done].
    cbn. by rewrite lookup_insert_ne.
  - cbn. by rewrite lookup_insert_ne.
Qed.

Lemma get_next_song_fields catalog emotion rnd st :
  let st' := snd (get_next_song catalog emotion rnd st) in
  current_emotion st' = current_emotion st
  ∧ next_emotion st' = next_emotion st
  ∧ current_confidence st' = current_confidence st
  ∧ current_song st' = current_song st
  ∧ song_assigned st' = song_assigned st
  ∧ song_playing st' = song_playing st.
Proof.
  cbv zeta. destruct (get_next_song_frame catalog emotion rnd st) as [ps ->].
  by destruct st.
Qed.

(** X1: a call of [get_next_song] for one emotion writes the history of
    that emotion only: the history of every other label and all the other
    globals are the same afterwards, whether the call returns or raises. *)
Theorem rotation_touches_one_category catalog emotion rnd st :
  let st' := snd (get_next_song catalog emotion rnd st) in
  (∀ e, e ≠ emotion → played_songs st' !! e = played_songs st !! e)
  ∧ current_emotion st' = current_emotion st
  ∧ next_emotion st' = next_emotion st
  ∧ current_confidence st' = current_confidence st
  ∧ current_song st' = current_song st
  ∧ song_assigned st' = song_assigned st
  ∧ song_playing st' = song_playing st.
Proof.
  cbv zeta. split.
  - intros e He. by apply get_next_song_other_history.
  - apply get_next_song_fields.
Qed.

Lemma rotation_touches_one_category_witness :
  played_songs
    (snd (get_next_song emotion_to_songs "happy" 0 happy_played_out)) !! "sad"
  = Some [].
Proof.
  destruct (rotation_touches_one_category emotion_to_songs "happy" 0
              happy_played_out) as (H & _).
  rewrite H; [reflexivity|discriminate].
Defined.

(** X2: what [get_next_song] returns and the history it leaves depend on
    the playback history alone: two states with the same [played_songs] give
    the same result and the same new history, whatever their other globals
    hold. *)
Theorem rotation_reads_history_only catalog emotion rnd st1 st2 :
  played_songs st1 = played_songs st2 →
  fst (get_next_song catalog emotion rnd st1)
  = fst (get_next_song catalog emotion rnd st2)
  ∧ played_songs (snd (get_next_song catalog emotion rnd st1))
    = played_songs (snd (get_next_song catalog emotion rnd st2)).
Proof.
  intros Hps.
  destruct st1 as [ps ce1 ne1 cc1 cs1 sa1 sp1], st2 as [ps2 ce2 ne2 cc2 cs2 sa2 sp2].
  cbn in Hps. subst ps2.
  destruct (decide (default [] (catalog !! emotion) = [])) as [Hnil|Hne].
  { by rewrite !get_next_song_no_songs. }
  destruct (catalog !! emotion) as [songs|] eqn:Hcat; [|done]. cbn in Hne.
  destruct (ps !! emotion) as [h|] eqn:Hh.
  - pose proof (λ st H, get_next_song_eq catalog emotion rnd st songs h Hcat Hne H)
      as Heq.
    cbv zeta in Heq. rewrite !Heq by exact Hh.
    destruct (remaining_songs _ _ !! _); [split; reflexivity|].
    unfold state_at_draw. destruct (length h =? length songs); split; reflexivity.
  - pose proof (λ st H, get_next_song_KeyError catalog emotion rnd st songs Hcat Hne H)
      as Heq.
    rewrite !Heq by exact Hh. split; reflexivity.
Qed.

Lemma rotation_reads_history_only_witness :
  fst (get_next_song emotion_to_songs "happy" 1 waiting_happy1)
  = fst (get_next_song emotion_to_songs "happy" 1
           (initial_state emotion_to_songs)).
Proof.
  apply (rotation_reads_history_only emotion_to_songs "happy" 1 waiting_happy1
           (initial_state emotion_to_songs)).
  reflexivity.
Defined.

(** ** The history in a run of the server *)

Lemma detect_tick_played catalog dominant confidence rnd file_exists st :
  played_songs (snd (detect_tick catalog dominant confidence rnd file_exists st))
  = if idle st
    then played_songs
           (snd (get_next_song catalog (locked_emotion dominant) rnd
                   (lock_emotion dominant confidence st)))
    else played_songs st.
Proof.
  destruct (idle st) eqn:Hidle.
  - rewrite detect_tick_idle_eq by done.
    destruct (get_next_song _ _ _ _) as [[chosen|e] st']; cbn [snd]; [|done].
    apply assign_chosen_played.
  - rewrite detect_tick_busy by done. by destruct st.
Qed.

Lemma run_op_played catalog o st :
  played_songs (run_op catalog o st) = played_songs st
  ∨ ∃ emotion rnd st0,
      played_songs st0 = played_songs st
      ∧ played_songs (run_op catalog o st)
        = played_songs (snd (get_next_song catalog emotion rnd st0)).
Proof.
  destruct o as [dominant confidence rnd file_exists| |]; cbn [run_op].
  - rewrite detect_tick_played. destruct (idle st); [|by left].
    right. eexists _, _, _. split; [|done]. by destruct st.
  - left. by destruct st.
  - left. by destruct st.
Qed.

Lemma get_next_song_dom catalog emotion rnd st :
  dom (played_songs (snd (get_next_song catalog emotion rnd st)))
  = dom (played_songs st).
Proof.
  destruct (get_next_song_outcome catalog emotion rnd st)
    as [| |songs h _ _ Hh _|songs h c _ _ Hh _]; cbn [snd]; try done.
  - unfold state_at_draw. destruct (_ =? _); [|done].
    cbn. apply dom_insert_lookup_L. by rewrite Hh.
  - cbn. apply dom_insert_lookup_L. by rewrite Hh.
Qed.

(** X3: in every state the server can reach, [played_songs] has exactly
    the keys of the catalog: no operation adds a history for a label that
    the catalog does not list, and none removes one. *)
Theorem reachable_history_keys catalog st :
  reachable catalog st →
  dom (played_songs st) = dom catalog
  ∧ ∀ e, catalog !! e = None → played_songs st !! e = None.
Proof.
  intros Hst.
  assert (dom (played_songs st) = dom catalog) as Hdom.
  { induction Hst as [|st o _ IH].
    - cbn. unfold initial_played_songs. apply dom_fmap_L.
    - destruct (run_op_played catalog o st) as [->|(e & rnd & st0 & H0 & ->)];
        [done|].
      by rewrite get_next_song_dom, H0. }
  split; [done|].
  intros e He. apply not_elem_of_dom. rewrite Hdom. by apply not_elem_of_dom.
Qed.

Lemma reachable_history_keys_witness :
  played_songs
    (run_op emotion_to_songs (Detect "surprise" 0.5%float 0 (λ _, true))
       (initial_state emotion_to_songs)) !! "surprise"
  = None.
Proof.
  apply (reachable_history_keys emotion_to_songs).
  - apply reachable_step, reachable_init.
  - reflexivity.
Defined.

(** X4: with a catalog that lists no song twice, in every reachable state
    the history of each listed emotion repeats no song and holds songs of
    that emotion only, every call of [get_next_song] returns without
    raising, and so does every detection tick. *)
Theorem reachable_rotation_total catalog st :
  catalog_unique catalog →
  reachable catalog st →
  (∀ e songs, catalog !! e = Some songs →
     ∃ h, played_songs st !! e = Some h ∧ NoDup h ∧ h ⊆ songs)
  ∧ (∀ e rnd, ∃ v, fst (get_next_song catalog e rnd st) = Ok v)
  ∧ (∀ dominant confidence rnd file_exists,
       fst (detect_tick catalog dominant confidence rnd file_exists st) = Ok tt).
Proof.
  intros Hcat Hst.
  pose proof (reachable_history_ok catalog st Hcat Hst) as Hok.
  split; [exact Hok|]. split.
  - intros e rnd. by apply get_next_song_history_ok.
  - intros. by apply detect_tick_history_ok.
Qed.

Lemma reachable_rotation_total_witness :
  fst (detect_tick emotion_to_songs "angry" 0.5%float 2 (λ _, false)
         (run_op emotion_to_songs ClientEnded (initial_state emotion_to_songs)))
  = Ok tt.
Proof.
  apply (reachable_rotation_total emotion_to_songs).
  - exact emotion_to_songs_catalog_unique.
  - apply reachable_step, reachable_init.
Defined.

(** X5: one call of [get_next_song] on a listed emotion, from any history
    that repeats no song and lies within the entry: the call returns a song
    of the entry that is not in the history as it stands at the draw (the
    history itself, or the empty one when it was full), and appends it. *)
Theorem get_next_song_serves_unplayed catalog emotion rnd st songs h :
  catalog !! emotion = Some songs →
  NoDup songs →
  songs ≠ [] →
  played_songs st !! emotion = Some h →
  NoDup h →
  h ⊆ songs →
  ∃ c,
    fst (get_next_song catalog emotion rnd st) = Ok (Some c)
    ∧ c ∈ songs
    ∧ (length h < length songs → c ∉ h)
    ∧ played_songs (snd (get_next_song catalog emotion rnd st)) !! emotion
      = Some (if length h =? length songs then [c] else h ++ [c]).
Proof.
  intros Hcat Hnd Hne Hh Hndh Hsub.
  destruct (get_next_song_fresh catalog emotion rnd st songs h)
    as (c & -> & Hc & Hfresh); try done.
  exists c. cbn [fst snd]. split; [done|]. split; [done|]. split.
  - intros Hlt. by rewrite history_at_draw_short in Hfresh.
  - cbn. rewrite lookup_insert_eq. unfold history_at_draw.
    by destruct (length h =? length songs).
Qed.

Lemma get_next_song_serves_unplayed_witness :
  ∃ c,
    fst (get_next_song emotion_to_songs "sad" 4 (initial_state emotion_to_songs))
    = Ok (Some c)
    ∧ c ∈ ["sad1.mp3"; "sad2.mp3"].
Proof.
  destruct (get_next_song_serves_unplayed emotion_to_songs "sad" 4
              (initial_state emotion_to_songs) ["sad1.mp3"; "sad2.mp3"] [])
    as (c & Hc & Hin & _).
  - reflexivity.
  - compute_done.
  - discriminate.
  - reflexivity.
  - constructor.
  - intros x Hx. by apply not_elem_of_nil in Hx.
  - exists c. split; assumption.
Defined.

(** ** A catalog entry that lists a song twice *)

Lemma remove_dups_length_le (l : list string) :
  length (remove_dups l) ≤ length l.
Proof.
  induction l as [|x l IH]; [done|].
  cbn. destruct (decide_rel elem_of x l); cbn; lia.
Qed.

Lemma remove_dups_length_NoDup (l : list string) :
  length (remove_dups l) = length l → NoDup l.
Proof.
  induction l as [|x l IH]; [constructor|].
  cbn. pose proof (remove_dups_length_le l).
  destruct (decide_rel elem_of x l); cbn; intros Hlen; [lia|].
  constructor; [done|]. apply IH. lia.
Qed.

Lemma list_difference_covered (l k : list string) :
  l ⊆ k → list_difference l k = [].
Proof.
  intros Hsub. destruct (list_difference l k) as [|x d] eqn:Hd; [done|].
  assert (x ∈ list_difference l k) as Hx by (rewrite Hd; left).
  apply list_elem_of_difference in Hx as [Hx Hnot]. by apply Hsub in Hx.
Qed.

Lemma get_next_song_fresh_distinct catalog emotion rnd st songs h :
  catalog !! emotion = Some songs →
  played_songs st !! emotion = Some h →
  NoDup h →
  length h < length (remove_dups songs) →
  ∃ c,
    get_next_song catalog emotion rnd st
    = (Ok (Some c),
       set_played_songs (<[emotion := h ++ [c]]> (played_songs st)) st)
    ∧ c ∈ songs ∧ c ∉ h.
Proof.
  intros Hcat Hh Hndh Hlt.
  pose proof (remove_dups_length_le songs) as Hle.
  assert (songs ≠ []) as Hne by (intros ->; cbn in Hlt; lia).
  rewrite (get_next_song_eq catalog emotion rnd st songs h Hcat Hne Hh).
  cbv zeta. rewrite history_at_draw_short by lia.
  destruct (choice_in_range rnd (remaining_songs songs h)) as (c & -> & Hc).
  - intros Hnil.
    assert (remove_dups songs ⊆ h) as Hsub.
    { intros x Hx. destruct (decide (x ∈ h)) as [|Hnot]; [done|].
      assert (x ∈ remaining_songs songs h) as Hrem
        by (apply elem_of_remaining_songs; by rewrite elem_of_remove_dups in Hx).
      rewrite Hnil in Hrem. by apply not_elem_of_nil in Hrem. }
    pose proof (history_length_le h (remove_dups songs)
                  (NoDup_remove_dups songs) Hsub). lia.
  - apply elem_of_remaining_songs in Hc as [Hc1 Hc2]. by exists c.
Qed.

Lemma get_next_songs_fresh_distinct catalog emotion songs :
  catalog !! emotion = Some songs →
  ∀ rnds st h,
    played_songs st !! emotion = Some h →
    NoDup h → h ⊆ songs →
    length h + length rnds ≤ length (remove_dups songs) →
    ∃ picked st',
      get_next_songs catalog emotion rnds st = (Ok (Some <$> picked), st')
      ∧ length picked = length rnds
      ∧ played_songs st' !! emotion = Some (h ++ picked)
      ∧ NoDup (h ++ picked)
      ∧ h ++ picked ⊆ songs.
Proof.
  intros Hcat rnds.
  induction rnds as [|rnd rnds IH]; intros st h Hh Hndh Hsub Hlen.
  - exists [], st. rewrite app_nil_r. done.
  - cbn [length] in Hlen.
    destruct (get_next_song_fresh_distinct catalog emotion rnd st songs h)
      as (c & Hstep & Hc & Hfresh); [done|done|done|lia|].
    set (st1 := set_played_songs (<[emotion := h ++ [c]]> (played_songs st)) st)
      in *.
    destruct (IH st1 (h ++ [c]))
      as (picked & st' & Hrun & Hlen' & Hh' & Hnd' & Hsub').
    + unfold st1. cbn. apply lookup_insert_eq.
    + apply NoDup_app. split; [done|]. split; [|apply NoDup_singleton].
      intros x Hx ->%list_elem_of_singleton. done.
    + intros x [Hx | ->%list_elem_of_singleton]%elem_of_app; [by apply Hsub|done].
    + rewrite length_app. cbn. lia.
    + exists (c :: picked), st'.
      rewrite <- app_assoc in Hh', Hnd', Hsub'. cbn in Hh', Hnd', Hsub'.
      split; [|by cbn; rewrite Hlen'].
      cbn [get_next_songs].
      rewrite (bind_ok _ _ _ _ _ Hstep), (bind_ok _ _ _ _ _ Hrun). done.
Qed.

(** X6: when a catalog entry lists some song twice, the calls of
    [get_next_song] from an empty history first serve each distinct song of
    the entry once; the call after them raises [IndexError], whatever number
    is drawn, because the history is still shorter than the entry (line 60
    does not empty it) while no song is left to choose from (line 63).  The
    history is left as it was. *)
Theorem repeated_entry_raises catalog emotion songs rnds rnd st :
  catalog !! emotion = Some songs →
  ¬ NoDup songs →
  played_songs st !! emotion = Some [] →
  length rnds = length (remove_dups songs) →
  ∃ picked st',
    get_next_songs catalog emotion rnds st = (Ok (Some <$> picked), st')
    ∧ picked ≡ₚ remove_dups songs
    ∧ get_next_song catalog emotion rnd st' = (Raise IndexError, st').
Proof.
  intros Hcat Hdup Hempty Hlen.
  destruct (get_next_songs_fresh_distinct catalog emotion songs Hcat rnds st [])
    as (picked & st' & Hrun & Hlen' & Hh' & Hnd' & Hsub').
  { exact Hempty. }
  { constructor. }
  { intros x Hx. by apply not_elem_of_nil in Hx. }
  { cbn [length]. lia. }
  cbn in Hh', Hnd', Hsub'.
  assert (picked ≡ₚ remove_dups songs) as Hperm.
  { apply submseteq_length_Permutation; [|lia].
    apply NoDup_submseteq; [done|].
    intros x Hx. apply elem_of_remove_dups. by apply Hsub'. }
  exists picked, st'. split; [done|]. split; [done|].
  pose proof (remove_dups_length_le songs) as Hle.
  assert (length picked < length songs) as Hlt.
  { destruct (decide (length (remove_dups songs) = length songs)) as [Heq|];
      [|lia].
    by apply remove_dups_length_NoDup in Heq. }
  assert (songs ≠ []) as Hne by (intros ->; apply Hdup; constructor).
  rewrite (get_next_song_eq catalog emotion rnd st' songs picked Hcat Hne Hh').
  cbv zeta. unfold state_at_draw.
  rewrite history_at_draw_short by done.
  destruct (Nat.eqb_spec (length picked) (length songs)); [lia|].
  unfold remaining_songs. rewrite list_difference_covered; [done|].
  intros x Hx. by rewrite Hperm.
Qed.

Lemma repeated_entry_raises_witness :
  let catalog : gmap string (list string) := {["happy" := ["a.mp3"; "a.mp3"]]} in
  ∃ picked st',
    get_next_songs catalog "happy" [3] (initial_state catalog)
    = (Ok (Some <$> picked), st')
    ∧ get_next_song catalog "happy" 5 st' = (Raise IndexError, st').
Proof.
  cbv zeta.
  destruct (repeated_entry_raises {["happy" := ["a.mp3"; "a.mp3"]]} "happy"
              ["a.mp3"; "a.mp3"] [3] 5
              (initial_state {["happy" := ["a.mp3"; "a.mp3"]]}))
    as (picked & st' & Hrun & _ & Hraise).
  - reflexivity.
  - intros Hnd. apply NoDup_cons_1_1 in Hnd. apply Hnd. left.
  - reflexivity.
  - reflexivity.
  - exists picked, st'. split; assumption.
Defined.

(** ** The assigned song and the locked emotion *)

Lemma idle_consistent_no_song st :
  assignment_consistent st → idle st = true → current_song st = None.
Proof.
  intros Hst Hidle. unfold idle in Hidle.
  destruct (song_assigned st) eqn:Hsa; [done|].
  destruct (current_song st) as [song|] eqn:Hcs; [|done].
  unfold assignment_consistent in Hst. rewrite Hsa, Hcs in Hst.
  by destruct Hst as [_ ?%symmetry].
Qed.

Lemma run_op_song_matches_lock catalog o st :
  assignment_consistent st →
  song_matches_lock catalog st →
  song_matches_lock catalog (run_op catalog o st).
Proof.
  intros Hcons Hst.
  destruct o as [dominant confidence rnd file_exists| |]; cbn [run_op].
  - destruct (idle st) eqn:Hidle.
    + pose proof (idle_consistent_no_song st Hcons Hidle) as Hnone.
      rewrite detect_tick_idle_eq by done.
      set (st1 := lock_emotion dominant confidence st).
      assert (current_song st1 = None) as Hnone1 by (by destruct st).
      assert (current_emotion st1 = Some (locked_emotion dominant)) as Hce1
        by (by destruct st).
      destruct (get_next_song_outcome catalog (locked_emotion dominant) rnd st1)
        as [| |songs h _ _ _ _|songs h c Hcat _ _ Hc]; cbn [snd].
      * intros s. by destruct st1.
      * intros s. by rewrite Hnone1.
      * intros s. unfold state_at_draw.
        destruct (_ =? _); [|by rewrite Hnone1].
        destruct st1. cbn in *. by rewrite Hnone1.
      * intros s. unfold assign_chosen.
        destruct (truthy (Some c) && file_exists c) eqn:Hok;
          [|by destruct st1].
        apply andb_prop in Hok as [Htruthy _].
        destruct st1. cbn in *. intros [= <-]. split.
        { unfold truthy in Htruthy. intros ->. done. }
        apply elem_of_remaining_songs in Hc as [Hc _].
        eexists _, songs, _. split; [exact Hce1|]. split; [done|].
        split; [done|]. rewrite lookup_insert_eq. split; [done|].
        apply last_snoc.
    + rewrite detect_tick_busy by done. intros s Hs.
      destruct (Hst s) as (Hne & e & songs & h & ?); [by destruct st|].
      split; [done|]. exists e, songs, h. by destruct st.
  - intros s Hs. destruct (Hst s) as (Hne & e & songs & h & ?); [by destruct st|].
    split; [done|]. exists e, songs, h. by destruct st.
  - intros s. by destruct st.
Qed.

Lemma reachable_song_matches_lock catalog st :
  reachable catalog st → song_matches_lock catalog st.
Proof.
  induction 1 as [|st o Hst IH].
  - intros s. discriminate.
  - apply run_op_song_matches_lock; [|done]. by apply (reachable_consistent catalog).
Qed.

(** X7: in every state the server can reach, a recorded [current_song] is
    a non-empty file name listed in the catalog under the locked emotion
    [current_emotion], and it is the song most recently entered in the
    history of that emotion. *)
Theorem assigned_song_matches_lock catalog st s :
  reachable catalog st →
  current_song st = Some s →
  s ≠ ""
  ∧ ∃ e songs h,
      current_emotion st = Some e
      ∧ catalog !! e = Some songs
      ∧ s ∈ songs
      ∧ played_songs st !! e = Some h
      ∧ last h = Some s.
Proof.
  intros Hst. by apply (reachable_song_matches_lock catalog st Hst).
Qed.

Lemma assigned_song_matches_lock_witness :
  ∃ e songs h,
    current_emotion
      (run_op emotion_to_songs (Detect "sad" 0.5%float 0 (λ _, true))
         (initial_state emotion_to_songs)) = Some e
    ∧ emotion_to_songs !! e = Some songs
    ∧ "sad1.mp3" ∈ songs
    ∧ played_songs
        (run_op emotion_to_songs (Detect "sad" 0.5%float 0 (λ _, true))
           (initial_state emotion_to_songs)) !! e = Some h
    ∧ last h = Some "sad1.mp3".
Proof.
  apply (assigned_song_matches_lock emotion_to_songs
           (run_op emotion_to_songs (Detect "sad" 0.5%float 0 (λ _, true))
              (initial_state emotion_to_songs)) "sad1.mp3").
  - apply reachable_step, reachable_init.
  - reflexivity.
Defined.

(** X8: a detection tick that finds the guard open, on an emotion with
    songs and a history without repeats within the entry, returns normally
    and enters the drawn song in the history whether or not its file
    exists.  When the file is missing the machine stays idle with no song,
    so the next tick draws again from the songs not yet entered. *)
Theorem idle_tick_consumes_song
    catalog dominant confidence rnd file_exists st songs h :
  catalog !! locked_emotion dominant = Some songs →
  NoDup songs →
  songs ≠ [] →
  played_songs st !! locked_emotion dominant = Some h →
  NoDup h →
  h ⊆ songs →
  idle st = true →
  let r := detect_tick catalog dominant confidence rnd file_exists st in
  ∃ c,
    fst r = Ok tt
    ∧ c ∈ songs
    ∧ (length h < length songs → c ∉ h)
    ∧ played_songs (snd r) !! locked_emotion dominant
      = Some (if length h =? length songs then [c] else h ++ [c])
    ∧ (file_exists c = false →
       current_song (snd r) = None
       ∧ song_assigned (snd r) = false
       ∧ idle (snd r) = true).
Proof.
  intros Hcat Hnd Hne Hh Hndh Hsub Hidle. cbv zeta.
  rewrite detect_tick_idle_eq by done.
  destruct (get_next_song_fresh catalog (locked_emotion dominant) rnd
              (lock_emotion dominant confidence st) songs h)
    as (c & -> & Hc & Hfresh); [done|done|done| |done|done|].
  { destruct st. exact Hh. }
  exists c. cbn [fst snd]. split; [done|]. split; [done|]. split.
  { intros Hlt. by rewrite history_at_draw_short in Hfresh. }
  split.
  - rewrite assign_chosen_played. cbn. rewrite lookup_insert_eq.
    unfold history_at_draw. by destruct (length h =? length songs).
  - intros Hmissing. unfold assign_chosen. rewrite Hmissing, andb_false_r.
    unfold idle in *. destruct st. cbn in *.
    apply andb_prop in Hidle as [_ ->]. done.
Qed.

Lemma idle_tick_consumes_song_witness :
  let r := detect_tick emotion_to_songs "angry" 0.5%float 0 (λ _, false)
             (initial_state emotion_to_songs) in
  ∃ c, fst r = Ok tt ∧ c ∈ ["angry1.mp3"; "angry2.mp3"]
       ∧ played_songs (snd r) !! "angry" = Some [c].
Proof.
  cbv zeta.
  destruct (idle_tick_consumes_song emotion_to_songs "angry" 0.5%float 0
              (λ _, false) (initial_state emotion_to_songs)
              ["angry1.mp3"; "angry2.mp3"] [])
    as (c & Hok & Hin & _ & Hplayed & _).
  - reflexivity.
  - compute_done.
  - discriminate.
  - reflexivity.
  - constructor.
  - intros x Hx. by apply not_elem_of_nil in Hx.
  - reflexivity.
  - exists c. split; [exact Hok|]. split; [exact Hin|exact Hplayed].
Defined.

(** ** Reading the state *)

Lemma reachable_song_truthy catalog st :
  reachable catalog st → truthy (current_song st) = song_assigned st.
Proof.
  intros Hst.
  pose proof (reachable_consistent catalog st Hst) as Hcons.
  destruct (current_song st) as [s|] eqn:Hs.
  - destruct (reachable_song_matches_lock catalog st Hst s Hs) as [Hne _].
    unfold assignment_consistent in Hcons. rewrite Hs in Hcons.
    rewrite (proj2 Hcons) by done. cbn.
    apply String.eqb_neq in Hne. by rewrite Hne.
  - unfold assignment_consistent in Hcons. rewrite Hs in Hcons. cbn.
    destruct (song_assigned st); [|done].
    destruct Hcons as [Hcons _]. by destruct (Hcons eq_refl).
Qed.

Lemma get_state_read_only st : snd (get_state st) = st.
Proof. reflexivity. Qed.

(** X9: [get_state] changes no global and answers with the current
    values.  In every state the server can reach the answer is coherent:
    when a song is recorded, [song_assigned] is true, [song_filename] is its
    name and [song_url] is ["/static/songs/"] followed by that name; when
    none is, [song_assigned] is false and both are [null]. *)
Theorem get_state_coherent catalog st :
  reachable catalog st →
  ∃ resp,
    get_state st = (Ok resp, st)
    ∧ json_field "next_emotion" resp = Some (json_of_opt (next_emotion st))
    ∧ json_field "locked_emotion" resp = Some (json_of_opt (current_emotion st))
    ∧ json_field "confidence" resp = Some (JNum (current_confidence st))
    ∧ json_field "song_assigned" resp = Some (JBool (song_assigned st))
    ∧ json_field "song_playing" resp = Some (JBool (song_playing st))
    ∧ match current_song st with
      | Some s =>
          song_assigned st = true
          ∧ json_field "song_filename" resp = Some (JStr s)
          ∧ json_field "song_url" resp = Some (JStr ("/static/songs/" +:+ s))
      | None =>
          song_assigned st = false
          ∧ json_field "song_filename" resp = Some JNull
          ∧ json_field "song_url" resp = Some JNull
      end.
Proof.
  intros Hst. pose proof (reachable_song_truthy catalog st Hst) as Htruthy.
  pose proof (reachable_consistent catalog st Hst) as Hcons.
  unfold assignment_consistent in Hcons.
  eexists. split; [reflexivity|].
  cbn. repeat (split; [reflexivity|]).
  destruct st as [ps ce ne cc [s|] sa sp]; cbn in *.
  - assert (sa = true) as -> by (by apply Hcons).
    by rewrite Htruthy.
  - by rewrite <- Htruthy.
Qed.

Lemma get_state_coherent_witness :
  ∃ resp,
    get_state (run_op emotion_to_songs (Detect "happy" 0.5%float 0 (λ _, true))
                 (initial_state emotion_to_songs))
    = (Ok resp,
       run_op emotion_to_songs (Detect "happy" 0.5%float 0 (λ _, true))
         (initial_state emotion_to_songs))
    ∧ json_field "song_assigned" resp = Some (JBool true).
Proof.
  destruct (get_state_coherent emotion_to_songs
              (run_op emotion_to_songs (Detect "happy" 0.5%float 0 (λ _, true))
                 (initial_state emotion_to_songs)))
    as (resp & Hresp & _ & _ & _ & Hassigned & _).
  - apply reachable_step, reachable_init.
  - exists resp. split; [exact Hresp|exact Hassigned].
Defined.

(** ** The emotion detector's answer *)

Lemma py_max_in f best keys : py_max f best keys ∈ best :: keys.
Proof.
  revert best. induction keys as [|k keys IH]; intros best; cbn.
  - left.
  - specialize (IH (if PrimFloat.ltb (f best) (f k) then k else best)).
    apply elem_of_cons in IH as [-> | IH].
    + destruct (PrimFloat.ltb _ _); [right; left|left].
    + right. by right.
Qed.

Lemma dict_get_key k (d : list (string * float)) :
  k ∈ map fst d → is_Some (dict_get k d).
Proof.
  induction d as [|[k' v] d IH]; cbn.
  - by intros ?%not_elem_of_nil.
  - intros Hk. destruct (String.eqb_spec k k') as [->|Hne]; [by eexists|].
    apply elem_of_cons in Hk as [->|Hk]; [done|]. by apply IH.
Qed.

(** X10: [classify] looks at the first face only.  With no answer, no
    face, or a first face without scores it gives ["neutral"] with
    confidence [0.0]; otherwise the label it gives is one of the labels
    scored for that face and the confidence is that label's own score. *)
Theorem classify_first_face detected :
  match detected with
  | Some (f :: rest) =>
      classify detected = classify (Some [f])
      ∧ match face_emotions f with
        | [] => classify detected = ("neutral", 0.0%float)
        | _ :: _ =>
            fst (classify detected) ∈ map fst (face_emotions f)
            ∧ dict_get (fst (classify detected)) (face_emotions f)
              = Some (snd (classify detected))
        end
  | _ => classify detected = ("neutral", 0.0%float)
  end.
Proof.
  destruct detected as [[|f rest]|]; [done| |done].
  split; [done|].
  unfold classify. cbn [default from_option id].
  destruct (face_emotions f) as [|[k v] d] eqn:Hd; [done|].
  cbn [map fst snd].
  set (get := λ k0, default 0.0%float (dict_get k0 ((k, v) :: d))).
  pose proof (py_max_in get k (map fst d)) as Hin.
  split; [exact Hin|].
  destruct (dict_get_key (py_max get k (map fst d)) ((k, v) :: d) Hin)
    as [x Hx].
  subst get. cbv beta in *. by rewrite Hx.
Qed.

(** ** One iteration of the frame generator *)

Lemma loop_iteration_no_camera catalog w last_detection st :
  ensure_camera_open w = false →
  loop_iteration catalog w last_detection st = (Raise (NameError "np"), st).
Proof. intros Hcam. unfold loop_iteration. by rewrite Hcam. Qed.

Lemma loop_iteration_not_due catalog w last_detection st :
  ensure_camera_open w = true →
  w_frame_ok w = true →
  tick_due w last_detection = false →
  loop_iteration catalog w last_detection st
  = (Ok (last_detection, [frame_event w]), st).
Proof.
  intros Hcam Hread Hdue. unfold loop_iteration, tick_due, frame_event in *.
  rewrite Hcam, Hread. cbn [negb]. cbv zeta. rewrite Hdue.
  run_state. by destruct (w_frame_jpeg w).
Qed.

Lemma loop_iteration_tick catalog w last_detection st :
  ensure_camera_open w = true →
  w_frame_ok w = true →
  tick_due w last_detection = true →
  loop_iteration catalog w last_detection st
  = match detect_tick catalog (fst (classify (w_detected w)))
            (snd (classify (w_detected w))) (w_rnd w) (w_file_exists w) st with
    | (Ok _, st') => (Ok (w_now w, [frame_event w]), st')
    | (Raise e, st') => (Raise e, st')
    end.
Proof.
  intros Hcam Hread Hdue. unfold loop_iteration, tick_due, frame_event in *.
  rewrite Hcam, Hread. cbn [negb]. cbv zeta. rewrite Hdue.
  destruct (classify (w_detected w)) as [dominant confidence]. cbn [fst snd].
  unfold bind at 1. unfold bind at 1.
  destruct (detect_tick _ _ _ _ _ st) as [[[]|e] st']; [|done].
  run_state. by destruct (w_frame_jpeg w).
Qed.



(** The globals after an iteration: untouched, or those a detection tick
    leaves. *)
Lemma loop_iteration_state catalog w last_detection st :
  snd (loop_iteration catalog w last_detection st) = st
  ∨ ∃ dominant confidence,
      snd (loop_iteration catalog w last_detection st)
      = run_op catalog
          (Detect dominant confidence (w_rnd w) (w_file_exists w)) st.
Proof.
  destruct (ensure_camera_open w) eqn:Hcam.
  2: { left. by rewrite loop_iteration_no_camera. }
  destruct (w_frame_ok w) eqn:Hread.
  2: { left. by rewrite loop_iteration_read_failure. }
  destruct (tick_due w last_detection) eqn:Hdue.
  2: { left. by rewrite loop_iteration_not_due. }
  right. exists (fst (classify (w_detected w))), (snd (classify (w_detected w))).
  rewrite loop_iteration_tick by done. cbn [run_op].
  by destruct (detect_tick _ _ _ _ _ st) as [[[]|e] st'].
Qed.

(** ** Runs of the frame generator *)

Lemma mjpeg_generator_from_ops catalog ws :
  ∀ last_detection st,
    ∃ ops,
      Forall is_detect ops
      ∧ length ops ≤ length ws
      ∧ snd (mjpeg_generator_from catalog ws last_detection st)
        = run_ops catalog ops st.
Proof.
  induction ws as [|w ws IH]; intros last_detection st.
  { exists []. split; [constructor|]. done. }
  cbn [mjpeg_generator_from].
  pose proof (loop_iteration_state catalog w last_detection st) as Hstate.
  destruct (loop_iteration catalog w last_detection st) as [[[last' evs]|e] st'];
    cbn [snd] in Hstate.
  - destruct (IH last' st') as (ops & Hops & Hlen & Hrun).
    destruct (mjpeg_generator_from catalog ws last' st') as [[evs' e'] st''].
    cbn [snd] in *. subst st''.
    destruct Hstate as [->|(d & c & ->)].
    + exists ops. split; [done|]. split; [cbn; lia|done].
    + exists (Detect d c (w_rnd w) (w_file_exists w) :: ops).
      split; [by constructor|]. split; [cbn; lia|done].
  - cbn [snd]. destruct Hstate as [->|(d & c & ->)].
    + exists []. split; [constructor|]. split; [cbn; lia|done].
    + exists [Detect d c (w_rnd w) (w_file_exists w)].
      split; [by repeat constructor|]. split; [cbn; lia|done].
Qed.

Lemma run_ops_reachable catalog ops :
  ∀ st, reachable catalog st → reachable catalog (run_ops catalog ops st).
Proof.
  induction ops as [|o ops IH]; intros st Hst; [done|].
  unfold run_ops. cbn [foldl]. apply IH. by constructor.
Qed.

Lemma detect_tick_song_playing catalog dominant confidence rnd file_exists st :
  song_playing (snd (detect_tick catalog dominant confidence rnd file_exists st))
  = song_playing st.
Proof.
  destruct (idle st) eqn:Hidle.
  - rewrite detect_tick_idle_eq by done.
    destruct (get_next_song_frame catalog (locked_emotion dominant) rnd
                (lock_emotion dominant confidence st)) as [ps Hps].
    destruct (get_next_song _ _ _ _) as [[chosen|e] st']; cbn [snd] in *;
      subst st'; [|by destruct st].
    unfold assign_chosen.
    destruct chosen; [destruct (_ && _)|]; by destruct st.
  - rewrite detect_tick_busy by done. by destruct st.
Qed.

Lemma run_ops_detect_song_playing catalog ops :
  Forall is_detect ops →
  ∀ st, song_playing (run_ops catalog ops st) = song_playing st.
Proof.
  induction 1 as [|o ops Ho _ IH]; intros st; [done|].
  unfold run_ops in *. cbn [foldl]. rewrite IH.
  destruct o; [|done|done]. apply detect_tick_song_playing.
Qed.

(** X12: however long the generator runs and however it ends, the globals
    it leaves are those of a sequence of detection ticks, at most one per
    iteration: it never does the work of [song_started] or [song_ended], so
    [song_playing] is as before, and a reachable state stays reachable. *)
Theorem generator_only_ticks catalog ws last_detection st :
  let st' := snd (mjpeg_generator_from catalog ws last_detection st) in
  (∃ ops, Forall is_detect ops ∧ length ops ≤ length ws
          ∧ st' = run_ops catalog ops st)
  ∧ song_playing st' = song_playing st
  ∧ (reachable catalog st → reachable catalog st').
Proof.
  cbv zeta.
  destruct (mjpeg_generator_from_ops catalog ws last_detection st)
    as (ops & Hops & Hlen & ->).
  split; [by exists ops|]. split.
  - by apply run_ops_detect_song_playing.
  - apply run_ops_reachable.
Qed.

Lemma generator_only_ticks_witness :
  reachable emotion_to_songs
    (snd (mjpeg_generator emotion_to_songs [no_camera]
            (initial_state emotion_to_songs))).
Proof.
  destruct (generator_only_ticks emotion_to_songs [no_camera] 0.0%float
              (initial_state emotion_to_songs)) as (_ & _ & H).
  apply H. apply reachable_init.
Defined.

Lemma loop_iteration_with_camera catalog w last_detection st :
  catalog_unique catalog →
  history_ok catalog st →
  ensure_camera_open w = true →
  ∃ last' ev st',
    loop_iteration catalog w last_detection st = (Ok (last', [ev]), st')
    ∧ history_ok catalog st'.
Proof.
  intros Hcat Hst Hcam.
  destruct (w_frame_ok w) eqn:Hread.
  2: { rewrite loop_iteration_read_failure by done. by eexists _, _, _. }
  destruct (tick_due w last_detection) eqn:Hdue.
  2: { rewrite loop_iteration_not_due by done. by eexists _, _, _. }
  rewrite loop_iteration_tick by done.
  destruct (detect_tick_history_ok catalog (fst (classify (w_detected w)))
              (snd (classify (w_detected w))) (w_rnd w) (w_file_exists w) st
              Hcat Hst) as [Hok Hst'].
  destruct (detect_tick _ _ _ _ _ st) as [[[]|e] st']; cbn [fst snd] in *;
    [|done].
  by eexists _, _, _.
Qed.

Lemma mjpeg_generator_from_outcome catalog ws :
  catalog_unique catalog →
  ∀ last_detection st,
    history_ok catalog st →
    match mjpeg_generator_from catalog ws last_detection st with
    | (evs, e, st') =>
        history_ok catalog st'
        ∧ (e = None
           ∧ Forall (λ w, ensure_camera_open w = true) ws
           ∧ length evs = length ws
           ∨ e = Some (NameError "np")
             ∧ Exists (λ w, ensure_camera_open w = false) ws)
    end.
Proof.
  intros Hcat. induction ws as [|w ws IH]; intros last_detection st Hst.
  { cbn. split; [done|]. left. split; [done|]. split; [constructor|done]. }
  cbn [mjpeg_generator_from].
  destruct (ensure_camera_open w) eqn:Hcam.
  - destruct (loop_iteration_with_camera catalog w last_detection st Hcat Hst Hcam)
      as (last' & ev & st1 & -> & Hst1).
    specialize (IH last' st1 Hst1).
    destruct (mjpeg_generator_from catalog ws last' st1) as [[evs' e'] st''].
    destruct IH as [Hst'' [(-> & Hall & Hlen)|(-> & Hex)]].
    + split; [done|]. left. split; [done|].
      split; [by constructor|]. cbn. by rewrite Hlen.
    + split; [done|]. right. split; [done|]. by apply Exists_cons_tl.
  - rewrite loop_iteration_no_camera by done.
    split; [done|]. right. split; [done|]. by apply Exists_cons_hd.
Qed.

(** X13: started from a reachable state with a catalog that lists no
    song twice, the generator can only end by the [NameError] of the
    blank-frame branch.  As long as every iteration has a camera it raises
    nothing and emits exactly one event per iteration; it ends with
    [NameError] exactly when some iteration finds no camera. *)
Theorem generator_stops_only_without_camera catalog ws last_detection st :
  catalog_unique catalog →
  reachable catalog st →
  match mjpeg_generator_from catalog ws last_detection st with
  | (evs, e, st') =>
      e = None
      ∧ Forall (λ w, ensure_camera_open w = true) ws
      ∧ length evs = length ws
      ∨ e = Some (NameError "np")
        ∧ Exists (λ w, ensure_camera_open w = false) ws
  end.
Proof.
  intros Hcat Hst.
  pose proof (mjpeg_generator_from_outcome catalog ws Hcat last_detection st
                (reachable_history_ok catalog st Hcat Hst)) as H.
  destruct (mjpeg_generator_from catalog ws last_detection st) as [[evs e] st'].
  by destruct H as [_ H].
Qed.

Lemma generator_stops_only_without_camera_witness :
  match mjpeg_generator_from emotion_to_songs [frame_at_2s] 0.0%float
          (initial_state emotion_to_songs) with
  | (evs, e, st') =>
      e = None
      ∧ Forall (λ w, ensure_camera_open w = true) [frame_at_2s]
      ∧ length evs = 1
      ∨ e = Some (NameError "np")
        ∧ Exists (λ w, ensure_camera_open w = false) [frame_at_2s]
  end.
Proof.
  apply (generator_stops_only_without_camera emotion_to_songs [frame_at_2s]
           0.0%float (initial_state emotion_to_songs)).
  - exact emotion_to_songs_catalog_unique.
  - apply reachable_init.
Defined.

(** X14: with a reachable state and a catalog without repeated songs, an
    iteration that holds a frame while the detection interval has elapsed
    performs exactly one detection tick on the label and score that
    [classify] extracts, sets [last_detection] to the time of the frame and
    then emits the frame; the tick does not raise. *)
Theorem loop_iteration_runs_tick catalog w last_detection st :
  catalog_unique catalog →
  reachable catalog st →
  ensure_camera_open w = true →
  w_frame_ok w = true →
  tick_due w last_detection = true →
  loop_iteration catalog w last_detection st
  = (Ok (w_now w, [frame_event w]),
     run_op catalog
       (Detect (fst (classify (w_detected w))) (snd (classify (w_detected w)))
          (w_rnd w) (w_file_exists w))
       st).
Proof.
  intros Hcat Hst Hcam Hread Hdue.
  rewrite loop_iteration_tick by done. cbn [run_op].
  pose proof (reachable_detect_tick_returns catalog
                (fst (classify (w_detected w))) (snd (classify (w_detected w)))
                (w_rnd w) (w_file_exists w) st Hcat Hst) as Hok.
  destruct (detect_tick _ _ _ _ _ st) as [[[]|e] st']; cbn [fst snd] in *;
    [done|discriminate].
Qed.

Lemma loop_iteration_runs_tick_witness :
  loop_iteration emotion_to_songs frame_at_2s 0.0%float
    (initial_state emotion_to_songs)
  = (Ok (2.0%float, [Yield (frame_chunk "jpeg")]),
     run_op emotion_to_songs (Detect "neutral" 0.0%float 0 (λ _, true))
       (initial_state emotion_to_songs)).
Proof.
  apply (loop_iteration_runs_tick emotion_to_songs frame_at_2s 0.0%float
           (initial_state emotion_to_songs)).
  - exact emotion_to_songs_catalog_unique.
  - apply reachable_init.
  - reflexivity.
  - reflexivity.
  - reflexivity.
Defined.

(** ** Ticks on labels without songs, and recovery *)

(** X15: a detection tick that finds the guard open while the locked
    label has no songs in the catalog (a label the catalog does not list, or
    lists with an empty entry) returns normally: the label is locked all the
    same, no song is recorded, [song_assigned] stays false and the playback
    history is untouched. *)
Theorem unlisted_label_tick catalog dominant confidence rnd file_exists st :
  default [] (catalog !! locked_emotion dominant) = [] →
  idle st = true →
  let r := detect_tick catalog dominant confidence rnd file_exists st in
  fst r = Ok tt
  ∧ next_emotion (snd r) = Some dominant
  ∧ current_confidence (snd r) = confidence
  ∧ current_emotion (snd r) = Some (locked_emotion dominant)
  ∧ current_song (snd r) = None
  ∧ song_assigned (snd r) = false
  ∧ song_playing (snd r) = false
  ∧ played_songs (snd r) = played_songs st.
Proof.
  intros Hnone Hidle. cbv zeta.
  rewrite detect_tick_idle_eq by done.
  rewrite get_next_song_no_songs by done.
  unfold idle in Hidle. destruct st as [ps ce ne cc cs sa sp]. cbn in *.
  apply andb_prop in Hidle as [_ Hsp]. by destruct sp.
Qed.

Lemma unlisted_label_tick_witness :
  let r := detect_tick emotion_to_songs "surprise" 0.5%float 0 (λ _, true)
             (initial_state emotion_to_songs) in
  current_emotion (snd r) = Some "surprise" ∧ song_assigned (snd r) = false.
Proof.
  pose proof (unlisted_label_tick emotion_to_songs "surprise" 0.5%float 0
                (λ _, true) (initial_state emotion_to_songs)
                eq_refl eq_refl) as H.
  cbv zeta in H. destruct H as (_ & _ & _ & Hce & _ & Hsa & _).
  cbv zeta. split; [exact Hce|exact Hsa].
Defined.

(** X16: from every reachable state, [song_ended] followed by a detection
    tick assigns a song whenever the locked emotion has songs and their
    files exist: the tick returns normally, records a song of that emotion
    and leaves [song_assigned = True], [song_playing = False]. *)
Theorem ended_then_tick_assigns
    catalog dominant confidence rnd file_exists st songs :
  catalog_unique catalog →
  filenames_ok catalog →
  reachable catalog st →
  catalog !! locked_emotion dominant = Some songs →
  songs ≠ [] →
  (∀ s, s ∈ songs → file_exists s = true) →
  let st' := run_ops catalog
               [ClientEnded; Detect dominant confidence rnd file_exists] st in
  (∃ s, s ∈ songs ∧ current_song st' = Some s)
  ∧ song_assigned st' = true
  ∧ song_playing st' = false
  ∧ current_emotion st' = Some (locked_emotion dominant).
Proof.
  intros Hcat Hnames Hst Hsongs Hne Hfiles. cbv zeta.
  unfold run_ops. cbn [foldl].
  set (st1 := run_op catalog ClientEnded st).
  assert (reachable catalog st1) as Hst1 by (by constructor).
  assert (idle st1 = true) as Hidle by reflexivity.
  assert (song_playing st1 = false) as Hsp by reflexivity.
  destruct (reachable_history_ok catalog st1 Hcat Hst1 _ _ Hsongs)
    as (h & Hh & Hndh & Hsub).
  cbn [run_op]. rewrite detect_tick_idle_eq by done.
  destruct (get_next_song_fresh catalog (locked_emotion dominant) rnd
              (lock_emotion dominant confidence st1) songs h)
    as (c & -> & Hc & _); [done|by eapply Hcat|done| |done|done|].
  { by destruct st1. }
  assert (c ≠ "") as Hcne by (intros ->; by eapply Hnames).
  apply String.eqb_neq in Hcne.
  cbn [snd]. unfold assign_chosen, truthy. rewrite Hcne, (Hfiles c Hc).
  cbn [negb andb]. split; [by exists c|].
  destruct st1. cbn in *. by rewrite Hsp.
Qed.

Lemma ended_then_tick_assigns_witness :
  let st' := run_ops emotion_to_songs
               [ClientEnded; Detect "sad" 0.5%float 1 (λ _, true)]
               (run_op emotion_to_songs
                  (Detect "happy" 0.5%float 0 (λ _, true))
                  (initial_state emotion_to_songs)) in
  song_assigned st' = true ∧ current_emotion st' = Some "sad".
Proof.
  pose proof (ended_then_tick_assigns emotion_to_songs "sad" 0.5%float 1
                (λ _, true)
                (run_op emotion_to_songs
                   (Detect "happy" 0.5%float 0 (λ _, true))
                   (initial_state emotion_to_songs))
                ["sad1.mp3"; "sad2.mp3"]
                emotion_to_songs_catalog_unique emotion_to_songs_filenames_ok
                (reachable_step _ _ _ (reachable_init emotion_to_songs))
                eq_refl) as H.
  cbv zeta in H.
  destruct H as (_ & Hsa & _ & Hce); [discriminate|done|].
  cbv zeta. split; [exact Hsa|exact Hce].
Defined.
